(** * Nearby Business Finder: the search pipeline and the favorites store

    A shallow embedding of [src/App.tsx] and [src/services/geminiService.ts]:
    the great-circle distance [getDistance], the ranking pipeline
    [businessesWithDistance], the favorites store ([isFavorite],
    [toggleFavorite], the load effect), the search handler [handleSearch]
    and the lookup [findNearbyBusinesses] with its de-duplication step.

    JavaScript numbers are IEEE 754 binary64 values and are modelled by
    Rocq's primitive [float]; strings are sequences of UTF-16 code units;
    React state is an explicit record, and the calls a handler makes are
    recorded as a list of events. *)

From Stdlib Require Import ZArith NArith List Bool Lia Floats String Ascii.
From Stdlib Require Import Sorting.Sorted Sorting.Permutation.
Import ListNotations.

(** * Strings *)

(** A JavaScript string: its UTF-16 code units. *)
Definition jsstring : Type := list N.

(** The code units of an ASCII literal. *)
Definition js (s : string) : jsstring :=
  List.map N_of_ascii (list_ascii_of_string s).

(** The double quote, U+0022. *)
Definition quote : jsstring := [34%N].

(** [s === t] on strings. *)
Fixpoint strict_equals (s t : jsstring) : bool :=
  match s, t with
  | [], [] => true
  | c :: s', d :: t' => N.eqb c d && strict_equals s' t'
  | _, _ => false
  end.

(** ECMAScript's WhiteSpace and LineTerminator code points: what
    [String.prototype.trim] removes. *)
Definition isWhiteSpace (c : N) : bool :=
  ((9 <=? c) && (c <=? 13) || (c =? 32) || (c =? 160) || (c =? 5760)
   || (8192 <=? c) && (c <=? 8202) || (c =? 8232) || (c =? 8233)
   || (c =? 8239) || (c =? 8287) || (c =? 12288) || (c =? 65279))%N.

Fixpoint trimStart (s : jsstring) : jsstring :=
  match s with
  | c :: s' => if isWhiteSpace c then trimStart s' else s
  | [] => []
  end.

Definition trimEnd (s : jsstring) : jsstring := rev (trimStart (rev s)).

Definition trim (s : jsstring) : jsstring := trimEnd (trimStart s).

(** Truthiness of a string: the empty string is falsy. *)
Definition truthy_string (s : jsstring) : bool :=
  match s with [] => false | _ :: _ => true end.

(** * types.ts *)

(** An optional or [null] number is an [option]. *)
Record Business : Type := {
  title : jsstring;
  uri : jsstring;
  placeId : jsstring;
  latitude : option float;
  longitude : option float
}.

(** The fields [latitude] and [longitude] of [LocationCoords], named apart
    from those of [Business]. *)
Record LocationCoords : Type := {
  coords_latitude : float;
  coords_longitude : float
}.

Record MapsChunk : Type := {
  maps_uri : jsstring;
  maps_title : jsstring;
  maps_placeId : jsstring
}.

Record GroundingChunk : Type := { maps : option MapsChunk }.

(** * Numbers *)

(** The [Math] functions the engine approximates. [Math.sqrt] is exact and
    is the primitive [sqrt]. *)
Record MathObject : Type := {
  Math_sin : float -> float;
  Math_cos : float -> float;
  Math_atan2 : float -> float -> float
}.

(** [Math.PI], the double nearest to pi. *)
Definition Math_PI : float := 0x1.921fb54442d18p+1%float.

(** Truthiness of a number: [0], [-0] and [NaN] are falsy. *)
Definition truthy_number (x : float) : bool :=
  negb (x =? 0)%float && negb (is_nan x).

(** Truthiness of an optional number: [undefined] is falsy. *)
Definition truthy (x : option float) : bool :=
  match x with
  | None => false
  | Some v => truthy_number v
  end.

(** * App.tsx: the distance *)

Section Distance.

Variable Math : MathObject.

Local Open Scope float_scope.

Definition getDistance (loc1 loc2 : LocationCoords) : float :=
  let R := 6371 in
  let dLat := (coords_latitude loc2 - coords_latitude loc1) * (Math_PI / 180) in
  let dLon := (coords_longitude loc2 - coords_longitude loc1) * (Math_PI / 180) in
  let a :=
    Math_sin Math (dLat / 2) * Math_sin Math (dLat / 2) +
    Math_cos Math (coords_latitude loc1 * (Math_PI / 180)) *
    Math_cos Math (coords_latitude loc2 * (Math_PI / 180)) *
    Math_sin Math (dLon / 2) *
    Math_sin Math (dLon / 2) in
  let c := 2 * Math_atan2 Math (sqrt a) (sqrt (1 - a)) in
  let d := R * c in
  d.

(** * App.tsx: the ranking pipeline *)

(** An entry [{ biz, distance }] of [businessesWithDistance]. *)
Record Ranked : Type := {
  biz : Business;
  distance : option float
}.

(** The test [biz.latitude && biz.longitude]. *)
Definition hasCoordinates (b : Business) : bool :=
  truthy (latitude b) && truthy (longitude b).

(** The callback of [.map]: the distance is computed when the test holds. *)
Definition attachDistance (location : LocationCoords) (b : Business) : Ranked :=
  match hasCoordinates b, latitude b, longitude b with
  | true, Some la, Some lo =>
      {| biz := b;
         distance := Some (getDistance location
                             {| coords_latitude := la; coords_longitude := lo |}) |}
  | _, _, _ => {| biz := b; distance := None |}
  end.

(** The callback of [.filter]: [distance === undefined || distance <= searchRadius]. *)
Definition withinRadius (searchRadius : float) (r : Ranked) : bool :=
  match distance r with
  | None => true
  | Some d => d <=? searchRadius
  end.

(** [x ?? Infinity]. *)
Definition orInfinity (x : option float) : float :=
  match x with
  | Some d => d
  | None => infinity
  end.

(** The comparator passed to [.sort]. *)
Definition byDistance (a b : Ranked) : float :=
  orInfinity (distance a) - orInfinity (distance b).

Section ArraySort.

Context {A : Type}.
Variable comparefn : A -> A -> float.

(** ECMAScript's SortCompare: a [NaN] from the comparator counts as [+0]. *)
Definition SortCompare (x y : A) : float :=
  let v := comparefn x y in
  if is_nan v then 0 else v.

(** [Array.prototype.sort] is a stable sort; it is modelled by insertion
    sort, each element being placed before the first later element it does
    not compare greater than. For a consistent comparator every stable sort
    gives the same array ([Array_sort_unique] below). *)
Fixpoint sort_insert (x : A) (l : list A) : list A :=
  match l with
  | [] => [x]
  | y :: l' => if 0 <? SortCompare x y then y :: sort_insert x l' else x :: y :: l'
  end.

Definition Array_sort (l : list A) : list A := fold_right sort_insert [] l.

End ArraySort.

(** The [.map(...).filter(...)] stages, before sorting. *)
Definition inRadius (businesses : list Business) (searchRadius : float)
    (location : LocationCoords) : list Ranked :=
  filter (withinRadius searchRadius) (List.map (attachDistance location) businesses).

Definition businessesWithDistance (businesses : list Business) (searchRadius : float)
    (location : option LocationCoords) : list Ranked :=
  match location with
  | None => List.map (fun b => {| biz := b; distance := None |}) businesses
  | Some loc => Array_sort byDistance (inRadius businesses searchRadius loc)
  end.

(** The [distance] prop of a favorite's card, in [renderFavorites]:
    [location && fav.latitude && fav.longitude ? getDistance(...) : undefined]. *)
Definition favoriteDistance (location : option LocationCoords) (fav : Business) : option float :=
  match location, hasCoordinates fav, latitude fav, longitude fav with
  | Some loc, true, Some la, Some lo =>
      Some (getDistance loc {| coords_latitude := la; coords_longitude := lo |})
  | _, _, _, _ => None
  end.

End Distance.

(** * services/geminiService.ts *)

(** ** The insertion-ordered [Map]

    A [Map] keeps its keys in the order of their first insertion; setting a
    key that is present replaces the value in place. *)
Section JsMap.

Context {V : Type}.

Definition JsMap : Type := list (jsstring * V).

Fixpoint Map_set (k : jsstring) (v : V) (m : JsMap) : JsMap :=
  match m with
  | [] => [(k, v)]
  | (k', v') :: m' =>
      if strict_equals k' k then (k', v) :: m' else (k', v') :: Map_set k v m'
  end.

(** [new Map(entries)]: the entries are set from first to last. *)
Definition Map_new (entries : list (jsstring * V)) : JsMap :=
  fold_left (fun m kv => Map_set (fst kv) (snd kv) m) entries [].

(** [Array.from(m.values())]. *)
Definition Map_values (m : JsMap) : list V := List.map snd m.

End JsMap.

(** [Array.from(new Map(businesses.map(item => [item.placeId, item])).values())] *)
Definition uniqueBusinesses (businesses : list Business) : list Business :=
  Map_values (Map_new (List.map (fun item => (placeId item, item)) businesses)).

(** ** Exceptions *)

(** What a [catch] clause receives: an [Error] with its message, or any
    other value. *)
Inductive thrown : Type :=
  | JsError (message : jsstring)
  | NonError.

Inductive result (A : Type) : Type :=
  | Ok (a : A)
  | Throw (t : thrown).

Arguments Ok {A} a.
Arguments Throw {A} t.

Definition bind {A B : Type} (r : result A) (k : A -> result B) : result B :=
  match r with
  | Ok a => k a
  | Throw t => Throw t
  end.

Notation "x <- r ;; k" := (bind r (fun x => k))
  (at level 61, r at next level, right associativity).

(** [l.map(f)] for a callback that may throw. *)
Fixpoint map_throwing {A B : Type} (f : A -> result B) (l : list A) : result (list B) :=
  match l with
  | [] => Ok []
  | a :: l' => b <- f a ;; bs <- map_throwing f l' ;; Ok (b :: bs)
  end.

(** ** The generative-AI client *)

(** An element of [parsed.businesses]. *)
Record ParsedBusiness : Type := {
  parsed_title : jsstring;
  parsed_placeId : jsstring;
  parsed_latitude : option float;
  parsed_longitude : option float
}.

(** [response.text] by what [JSON.parse] makes of it: absent or empty,
    rejected with an error, or an object with its [businesses] property. *)
Inductive ResponseText : Type :=
  | NoText
  | Unparsable (message : jsstring)
  | Parsed (businesses : option (list ParsedBusiness)).

Record GenerateContentResponse : Type := {
  text : ResponseText;
  groundingChunks : option (list GroundingChunk)
}.

(** The request sent to [ai.models.generateContent]: the prompt is built
    from the category and either the coordinates or the manual location. *)
Inductive Request : Type :=
  | NearCoordinates (category : jsstring) (location : LocationCoords)
  | InPlace (category : jsstring) (manualLocation : jsstring).

(** The surroundings of the service: [process.env.API_KEY], the model, and
    [encodeURIComponent], which throws a [URIError] on a lone surrogate. *)
Record Environment : Type := {
  API_KEY : option jsstring;
  generateContent : Request -> result GenerateContentResponse;
  encodeURIComponent : jsstring -> result jsstring
}.

(** What the handlers do, in order. *)
Inductive Event : Type :=
  | SetError (error : option jsstring)
  | SetIsLoading (isLoading : bool)
  | SetBusinesses (businesses : list Business)
  | CallFindNearbyBusinesses (category : jsstring) (location : option LocationCoords)
      (manualLocation : jsstring)
  | CallGenerateContent (request : Request)
  | ConsoleError.

Section Service.

Variable env : Environment.

(** The [uri] template of a business found by coordinates. *)
Definition searchUri (b : ParsedBusiness) : result jsstring :=
  q <- encodeURIComponent env (parsed_title b) ;;
  Ok (js "https://www.google.com/maps/search/?api=1&query=" ++ q
      ++ js "&query_place_id=" ++ parsed_placeId b).

Definition fromParsed (b : ParsedBusiness) : result Business :=
  u <- searchUri b ;;
  Ok {| title := parsed_title b;
        placeId := parsed_placeId b;
        latitude := parsed_latitude b;
        longitude := parsed_longitude b;
        uri := u |}.

(** The filter on grounding chunks: [chunk.maps && chunk.maps.title && chunk.maps.uri]. *)
Definition usableChunk (chunk : GroundingChunk) : bool :=
  match maps chunk with
  | None => false
  | Some m => truthy_string (maps_title m) && truthy_string (maps_uri m)
  end.

Definition fromChunk (chunk : GroundingChunk) : result Business :=
  match maps chunk with
  | None => Throw (JsError (js "Cannot read properties of undefined"))
  | Some m => Ok {| title := maps_title m;
                    uri := maps_uri m;
                    placeId := maps_placeId m;
                    latitude := None;
                    longitude := None |}
  end.

(** The businesses read from the response, before de-duplication. *)
Definition readBusinesses (location : option LocationCoords)
    (response : GenerateContentResponse) : result (list Business) :=
  match location with
  | Some _ =>
      match text response with
      | NoText => Ok []
      | Unparsable message => Throw (JsError message)
      | Parsed None => Ok []
      | Parsed (Some bs) => map_throwing fromParsed bs
      end
  | None =>
      match groundingChunks response with
      | Some (c :: cs) => map_throwing fromChunk (filter usableChunk (c :: cs))
      | _ => Ok []
      end
  end.

(** The request, or the error thrown when there is no location. *)
Definition buildRequest (category : jsstring) (location : option LocationCoords)
    (manualLocation : jsstring) : result Request :=
  match location with
  | Some loc => Ok (NearCoordinates category loc)
  | None =>
      if truthy_string (trim manualLocation)
      then Ok (InPlace category manualLocation)
      else Throw (JsError (js "A location (either automatic or manual) must be provided."))
  end.

(** The body of the [try] block: the events it causes and its outcome. *)
Definition tryFindNearbyBusinesses (category : jsstring) (location : option LocationCoords)
    (manualLocation : jsstring) : list Event * result (list Business) :=
  match API_KEY env with
  | None | Some [] => ([], Throw (JsError (js "API_KEY environment variable not set")))
  | Some (_ :: _) =>
      match buildRequest category location manualLocation with
      | Throw t => ([], Throw t)
      | Ok request =>
          ([CallGenerateContent request],
           response <- generateContent env request ;;
           businesses <- readBusinesses location response ;;
           Ok (uniqueBusinesses businesses))
      end
  end.

(** The [catch] block: every failure is logged and thrown again as an [Error]. *)
Definition rethrow (t : thrown) : thrown :=
  match t with
  | JsError message => JsError (js "Failed to find businesses: " ++ message)
  | NonError => JsError (js "An unknown error occurred while finding businesses.")
  end.

Definition findNearbyBusinesses (category : jsstring) (location : option LocationCoords)
    (manualLocation : jsstring) : list Event * result (list Business) :=
  match tryFindNearbyBusinesses category location manualLocation with
  | (events, Ok businesses) => (events, Ok businesses)
  | (events, Throw t) => (events ++ [ConsoleError], Throw (rethrow t))
  end.

End Service.

(** * App.tsx: the favorites store *)

(** A number after [JSON.stringify] and [JSON.parse]: [NaN] and the
    infinities come back as [null], [-0] as [0]. *)
Definition JSON_number (x : float) : option float :=
  if is_finite x then Some (if (x =? 0)%float then 0%float else x) else None.

Definition JSON_optional (x : option float) : option float :=
  match x with
  | Some v => JSON_number v
  | None => None
  end.

Definition JSON_business (b : Business) : Business :=
  {| title := title b;
     uri := uri b;
     placeId := placeId b;
     latitude := JSON_optional (latitude b);
     longitude := JSON_optional (longitude b) |}.

(** [localStorage.getItem('favoriteBusinesses')], by what [JSON.parse]
    makes of it: no item (or an empty one), a text it rejects, or a list
    of businesses. *)
Inductive StoredItem : Type :=
  | NoItem
  | Corrupt
  | Stored (items : list Business).

(** [JSON.stringify(updatedFavorites)], as it will be read back. *)
Definition JSON_stringify (l : list Business) : StoredItem :=
  Stored (List.map JSON_business l).

(** The [favorites] state and the persisted item. *)
Record Favorites : Type := {
  favorites : list Business;
  favoriteBusinesses : StoredItem
}.

(** The effect run on the initial render. *)
Definition loadFavorites (st : Favorites) : Favorites :=
  match favoriteBusinesses st with
  | Stored l => {| favorites := l; favoriteBusinesses := favoriteBusinesses st |}
  | NoItem | Corrupt => st
  end.

Definition isFavorite (favs : list Business) (business : Business) : bool :=
  existsb (fun fav => strict_equals (placeId fav) (placeId business)) favs.

(** The callback of [.filter]: [fav.placeId !== business.placeId]. *)
Definition otherId (business : Business) (fav : Business) : bool :=
  negb (strict_equals (placeId fav) (placeId business)).

Definition updatedFavorites (favs : list Business) (business : Business) : list Business :=
  if isFavorite favs business
  then filter (otherId business) favs
  else favs ++ [business].

Definition toggleFavorite (st : Favorites) (business : Business) : Favorites :=
  let updated := updatedFavorites (favorites st) business in
  {| favorites := updated; favoriteBusinesses := JSON_stringify updated |}.

(** The operations of the store. *)
Inductive FavoritesOp : Type :=
  | Load
  | Toggle (business : Business)
  | IsFavorite (business : Business).

Definition runOp (op : FavoritesOp) (st : Favorites) : Favorites :=
  match op with
  | Load => loadFavorites st
  | Toggle b => toggleFavorite st b
  | IsFavorite _ => st
  end.

(** * App.tsx: the search handler *)

(** The state [handleSearch] reads and writes. *)
Record SearchState : Type := {
  searchTerm : jsstring;
  manualLocation : jsstring;
  location : option LocationCoords;
  businesses : list Business;
  isLoading : bool;
  error : option jsstring
}.

Definition MISSING_CATEGORY : jsstring :=
  js "Please enter a business category to search.".

Definition MISSING_LOCATION : jsstring :=
  js "Could not get your location. Please enable location services in your browser or enter a location manually.".

Definition noResultsMessage (term : jsstring) : jsstring :=
  js "No results found for " ++ quote ++ term ++ quote
  ++ js ". Try a different category or location.".

(** What [handleSearch] does after the lookup has settled. *)
Definition afterLookup (term : jsstring) (r : result (list Business)) : list Event :=
  match r with
  | Ok results =>
      (if (List.length results =? 0)%nat
       then [SetError (Some (noResultsMessage term))]
       else [])
      ++ [SetBusinesses results]
  | Throw (JsError message) => [SetError (Some message)]
  | Throw NonError => [SetError (Some (js "An unknown error occurred."))]
  end.

Definition handleSearch (env : Environment) (st : SearchState) : list Event :=
  if negb (truthy_string (trim (searchTerm st))) then
    [SetError (Some MISSING_CATEGORY)]
  else if match location st with None => true | Some _ => false end
          && negb (truthy_string (trim (manualLocation st))) then
    [SetError (Some MISSING_LOCATION)]
  else
    let (events, r) :=
      findNearbyBusinesses env (searchTerm st) (location st) (manualLocation st) in
    [SetIsLoading true; SetError None; SetBusinesses []]
    ++ [CallFindNearbyBusinesses (searchTerm st) (location st) (manualLocation st)]
    ++ events
    ++ afterLookup (searchTerm st) r
    ++ [SetIsLoading false].

(** The state setters, applied in order. *)
Definition setState (st : SearchState) (e : Event) : SearchState :=
  match e with
  | SetError x =>
      {| searchTerm := searchTerm st; manualLocation := manualLocation st;
         location := location st; businesses := businesses st;
         isLoading := isLoading st; error := x |}
  | SetIsLoading b =>
      {| searchTerm := searchTerm st; manualLocation := manualLocation st;
         location := location st; businesses := businesses st;
         isLoading := b; error := error st |}
  | SetBusinesses l =>
      {| searchTerm := searchTerm st; manualLocation := manualLocation st;
         location := location st; businesses := l;
         isLoading := isLoading st; error := error st |}
  | CallFindNearbyBusinesses _ _ _ | CallGenerateContent _ | ConsoleError => st
  end.

Definition afterSearch (env : Environment) (st : SearchState) : SearchState :=
  fold_left setState (handleSearch env st) st.

(** The events that are a call of the lookup or of the model behind it. *)
Definition isLookup (e : Event) : bool :=
  match e with
  | CallFindNearbyBusinesses _ _ _ | CallGenerateContent _ => true
  | _ => false
  end.

(** * The integer image of binary64 numbers

    The proofs about comparisons and the sort order read a number through an
    order embedding into the integers. *)

Module Binary64.
Local Open Scope Z_scope.

(** The exponent of the subnormal numbers. *)
Definition emin : Z := SpecFloat.emin prec emax.


(** Finite numbers: the zeros and the (sub)normal numbers. *)
Definition SFis_finite (x : spec_float) : bool :=
  match x with
  | S754_zero _ | S754_finite _ _ _ => true
  | S754_infinity _ | S754_nan => false
  end.

Definition SFis_nan (x : spec_float) : bool :=
  match x with S754_nan => true | _ => false end.

(** An order embedding of the non-NaN numbers into the integers.

    A finite number [m * 2 ^ e] is sent to the integer [m * 2 ^ (e - emin)],
    the infinities to [2 ^ (emax - emin)] and its opposite. *)
Definition BIG : Z := 2 ^ (emax - emin).

Definition mag (m : positive) (e : Z) : Z := Z.pos m * 2 ^ (e - emin).

Definition SFval (x : spec_float) : Z :=
  match x with
  | S754_zero _ => 0
  | S754_nan => 0
  | S754_infinity s => cond_Zopp s BIG
  | S754_finite s m e => cond_Zopp s (mag m e)
  end.

(** The integer image of a number. *)
Definition val (x : float) : Z := SFval (Prim2SF x).

End Binary64.

(** * Vocabulary of the properties *)

(** ** Distances and their order *)

(** Degrees to radians: the factor [Math.PI / 180]. *)
Definition RAD : float := (Math_PI / 180)%float.

(** The haversine formula in the specification's words: the great-circle
    distance on a sphere of the given radius between two points of
    latitudes [phi1] and [phi2] (in radians) whose latitudes and longitudes
    differ by [dPhi] and [dLambda]. *)
Definition haversine (Math : MathObject) (radius dPhi dLambda phi1 phi2 : float) : float :=
  let a :=
    (Math_sin Math (dPhi / 2) * Math_sin Math (dPhi / 2)
     + Math_cos Math phi1 * Math_cos Math phi2
       * Math_sin Math (dLambda / 2) * Math_sin Math (dLambda / 2))%float in
  (radius * (2 * Math_atan2 Math (sqrt a) (sqrt (1 - a))))%float.

(** What the distance formula needs from the engine's [Math]: sine is odd,
    [sin(+0)] and [atan2(+0, 1)] are [+0] (both required by ECMAScript), and
    the cosine of a finite number lies in [[-1, 1]]. *)
Record MathLaws (M : MathObject) : Prop := {
  sin_opp : forall x, Math_sin M (- x) = (- Math_sin M x)%float;
  sin_zero : Math_sin M 0 = 0%float;
  cos_range : forall x, is_finite x = true -> (abs (Math_cos M x) <=? 1)%float = true;
  atan2_zero_one : Math_atan2 M 0 1 = 0%float
}.

(** Order on distances with [undefined] as the greatest. *)
Definition distance_le (d1 d2 : option float) : Prop :=
  match d1, d2 with
  | Some x, Some y => (x <=? y)%float = true
  | _, None => True
  | None, Some _ => False
  end.

(** Two distances are equal: both [undefined], or [===] as numbers. *)
Definition sameDistance (d1 d2 : option float) : bool :=
  match d1, d2 with
  | Some x, Some y => (x =? y)%float
  | None, None => true
  | _, _ => false
  end.

(** A business with a coordinate equal to zero. *)
Definition zeroCoordinate (b : Business) : Prop :=
  (exists x, latitude b = Some x /\ (x =? 0)%float = true)
  \/ (exists y, longitude b = Some y /\ (y =? 0)%float = true).

(** The entry the ranker makes for a business. *)
Definition ranked (Math : MathObject) (location : option LocationCoords) (b : Business) : Ranked :=
  match location with
  | None => {| biz := b; distance := None |}
  | Some loc => attachDistance Math loc b
  end.

(** The integer rank of an entry: that of its distance, [undefined] at the top. *)
Definition rankOf (r : Ranked) : Z := Binary64.val (orInfinity (distance r)).

(** An entry whose sort key is not [NaN]. *)
Definition comparable (r : Ranked) : Prop := is_nan (orInfinity (distance r)) = false.

(** A distance that passed the filter of a radius other than [Infinity]. *)
Definition boundedDistance (r : Ranked) : Prop :=
  match distance r with
  | None => True
  | Some d => is_nan d = false /\ (Binary64.val d < Binary64.BIG)%Z
  end.

(** The order a rank induces. *)
Definition rank_le {A : Type} (rank : A -> Z) (x y : A) : Prop := (rank x <= rank y)%Z.

(** ** Ids and maps *)

(** The ids of a list, each once, in the order of their first appearance. *)
Fixpoint firstAppearance (ids : list jsstring) : list jsstring :=
  match ids with
  | [] => []
  | k :: ids' => k :: filter (fun k' => negb (strict_equals k' k)) (firstAppearance ids')
  end.

(** The first and the last business of a list with a given id. *)
Definition firstWith (k : jsstring) (l : list Business) : option Business :=
  find (fun b => strict_equals (placeId b) k) l.

Definition lastWith (k : jsstring) (l : list Business) : option Business :=
  firstWith k (rev l).

Definition hasId (k : jsstring) (ids : list jsstring) : bool :=
  existsb (fun k' => strict_equals k' k) ids.

Definition Map_keys {V : Type} (m : @JsMap V) : list jsstring := List.map fst m.

Definition Map_entry {V : Type} (k : jsstring) (m : @JsMap V) : option (jsstring * V) :=
  find (fun kv => strict_equals (fst kv) k) m.

(** The wording of the specification for the de-duplication: the entry
    kept for an id is the first business of the input with that id. *)
Definition keepsFirstOccurrence (bs : list Business) : Prop :=
  forall b, In b (uniqueBusinesses bs) -> firstWith (placeId b) bs = Some b.

(** ** The favorites store *)

(** No two entries share a [placeId]. *)
Definition uniqueIds (l : list Business) : Prop := NoDup (List.map placeId l).

(** The invariant of the store: the [favorites] state and the persisted
    list both have unique ids. *)
Definition storeInvariant (st : Favorites) : Prop :=
  uniqueIds (favorites st) /\
  match favoriteBusinesses st with
  | Stored l => uniqueIds l
  | NoItem | Corrupt => True
  end.

(** Two lists with the same entries. *)
Definition sameEntries (l1 l2 : list Business) : Prop :=
  forall x, In x l1 <-> In x l2.

(** ** The search handler *)

(** An event that changes no state. *)
Definition inert (e : Event) : Prop := forall st, setState st e = st.

(** Inputs that pass both validation rules. *)
Definition validInputs (st : SearchState) : Prop :=
  trim (searchTerm st) <> [] /\ (location st <> None \/ trim (manualLocation st) <> []).

(** The wording of the specification for an empty result: after a lookup
    that succeeds with an empty list, no error is reported. *)
Definition emptyResultIsNoError (env : Environment) (st : SearchState) : Prop :=
  snd (findNearbyBusinesses env (searchTerm st) (location st) (manualLocation st)) = Ok [] ->
  error (afterSearch env st) = None.

(** ** Sample data *)

(** The small-angle approximations [sin x = x], [cos x = 1] and
    [atan2 y x = y / x]: the simplest functions that meet [MathLaws]. *)
Definition smallAngleMath : MathObject :=
  {| Math_sin := fun x => x;
     Math_cos := fun _ => 1%float;
     Math_atan2 := fun y x => (y / x)%float |}.

Definition sampleBusiness (name id : string) (la lo : option float) : Business :=
  {| title := js name;
     uri := js "https://maps.example/" ++ js id;
     placeId := js id;
     latitude := la;
     longitude := lo |}.

Definition newYork : LocationCoords :=
  {| coords_latitude := 40%float; coords_longitude := (-74)%float |}.

Definition nearCafe : Business :=
  sampleBusiness "Near Cafe" "near" (Some 40.0078125%float) (Some (-74.0078125)%float).

Definition farCafe : Business :=
  sampleBusiness "Far Cafe" "far" (Some 41%float) (Some (-75)%float).

Definition equatorCafe : Business :=
  sampleBusiness "Equator Cafe" "equator" (Some 0%float) (Some (-74)%float).

Definition unplacedCafe : Business :=
  sampleBusiness "Unplaced Cafe" "unplaced" None None.

Definition sampleBusinesses : list Business :=
  [farCafe; equatorCafe; nearCafe; unplacedCafe].

Definition firstAbc : Business := sampleBusiness "First title" "abc" None None.

Definition secondAbc : Business := sampleBusiness "Second title" "abc" None None.

(** An environment whose model answers with no text and no grounding. *)
Definition silentEnvironment : Environment :=
  {| API_KEY := Some (js "key");
     generateContent := fun _ => Ok {| text := NoText; groundingChunks := None |};
     encodeURIComponent := fun s => Ok s |}.

(** An environment whose model rejects every request. *)
Definition failingEnvironment : Environment :=
  {| API_KEY := Some (js "key");
     generateContent := fun _ => Throw (JsError (js "quota exceeded"));
     encodeURIComponent := fun s => Ok s |}.

Definition searchFor (term manual : string) (loc : option LocationCoords)
    (shown : list Business) : SearchState :=
  {| searchTerm := js term; manualLocation := js manual; location := loc;
     businesses := shown; isLoading := false; error := None |}.

(** * App.tsx: what is rendered *)

(** The props of a [BusinessCard]. *)
Record Card : Type := {
  card_business : Business;
  card_isFavorite : bool;
  card_distance : option float
}.

(** What [renderContent] returns. *)
Inductive ContentView : Type :=
  | ShowLoader
  | ShowError (message : jsstring)
  | ShowResults (cards : list Card)
  | ShowOutOfRadius (searchRadius : float)
  | ShowWelcome
  | ShowNothing.

Section Render.

Variable Math : MathObject.

(** The card of an entry of [businessesWithDistance]. *)
Definition resultCard (favs : list Business) (r : Ranked) : Card :=
  {| card_business := biz r;
     card_isFavorite := isFavorite favs (biz r);
     card_distance := distance r |}.

Definition renderContent (st : SearchState) (favs : list Business) (searchRadius : float)
    : ContentView :=
  if isLoading st then ShowLoader
  else
    match error st with
    | Some (c :: message) => ShowError (c :: message)
    | Some [] | None =>
        match businesses st with
        | _ :: _ =>
            match businessesWithDistance Math (businesses st) searchRadius (location st) with
            | (_ :: _) as entries => ShowResults (List.map (resultCard favs) entries)
            | [] => ShowOutOfRadius searchRadius
            end
        | [] =>
            match favs with
            | [] => ShowWelcome
            | _ :: _ => ShowNothing
            end
        end
    end.

(** The card of a favorite. *)
Definition favoriteCard (location : option LocationCoords) (fav : Business) : Card :=
  {| card_business := fav;
     card_isFavorite := true;
     card_distance := favoriteDistance Math location fav |}.

(** [renderFavorites]: nothing when there is no favorite. *)
Definition renderFavorites (favs : list Business) (location : option LocationCoords)
    : option (list Card) :=
  match favs with
  | [] => None
  | _ :: _ => Some (List.map (favoriteCard location) favs)
  end.

End Render.

(** The [disabled] attribute of the search button. *)
Definition searchButtonDisabled (st : SearchState) : bool :=
  isLoading st
  || (match location st with None => true | Some _ => false end
      && negb (truthy_string (trim (manualLocation st)))).

(** * App.tsx: the geolocation effect *)

(** The [locationError] state beside the state of the search. *)
Record AppState : Type := {
  search : SearchState;
  locationError : option jsstring
}.

(** How the browser answers [getCurrentPosition]: no geolocation at all,
    no answer yet, a position, or an error. *)
Inductive GeolocationOutcome : Type :=
  | GeolocationUnsupported
  | GeolocationPending
  | GeolocationPosition (coords : LocationCoords)
  | GeolocationPositionError (message : jsstring).

Definition withLocation (st : SearchState) (l : option LocationCoords) : SearchState :=
  {| searchTerm := searchTerm st; manualLocation := manualLocation st;
     location := l; businesses := businesses st;
     isLoading := isLoading st; error := error st |}.

Definition locationErrorMessage (message : jsstring) : jsstring :=
  js "Error getting location: " ++ message
  ++ js ". Please enable location services or enter a location below.".

Definition geolocationEffect (outcome : GeolocationOutcome) (st : AppState) : AppState :=
  match outcome with
  | GeolocationUnsupported =>
      {| search := search st;
         locationError := Some (js "Geolocation is not supported by this browser.") |}
  | GeolocationPending => st
  | GeolocationPosition coords =>
      {| search := withLocation (search st) (Some coords); locationError := None |}
  | GeolocationPositionError message =>
      {| search := setState (search st) (SetError None);
         locationError := Some (locationErrorMessage message) |}
  end.

(** The manual location input is rendered when [locationError] is truthy,
    the radius slider when [location] is. *)
Definition manualInputShown (st : AppState) : bool :=
  match locationError st with
  | Some (_ :: _) => true
  | _ => false
  end.

Definition radiusSliderShown (st : AppState) : bool :=
  match location (search st) with
  | Some _ => true
  | None => false
  end.

(** The state of the first render, before the effects. *)
Definition initialSearch : SearchState :=
  {| searchTerm := []; manualLocation := []; location := None;
     businesses := []; isLoading := false; error := None |}.

Definition initialApp : AppState :=
  {| search := initialSearch; locationError := None |}.

(** * services/geminiService.ts: details and pitch *)

Record BusinessDetails : Type := {
  address : option jsstring;
  phone : option jsstring;
  hours : option (list jsstring);
  website : option jsstring
}.

(** [response.text] of the details request by what [JSON.parse] makes of
    it: absent or empty, rejected with an error, or a value, which is [null]
    or an object with the optional fields of [BusinessDetails]. *)
Inductive DetailsText : Type :=
  | NoDetailsText
  | UnparsableDetails (message : jsstring)
  | ParsedDetails (details : option BusinessDetails).

(** The surroundings of the two services: [process.env.API_KEY] and the
    model's answers to the details prompt of a place id and to the pitch
    prompt of a business name and a category ([response.text], if any). *)
Record AssistantEnvironment : Type := {
  assistant_API_KEY : option jsstring;
  detailsContent : jsstring -> result DetailsText;
  pitchContent : jsstring -> jsstring -> result (option jsstring)
}.

(** What the modal and its services do, in order; [SetTimeoutResetCopied]
    is [setTimeout(() => setCopied(false), ms)]. *)
Inductive ModalEvent : Type :=
  | SetModalIsLoading (isLoading : bool)
  | SetModalError (error : option jsstring)
  | SetDetails (details : option BusinessDetails)
  | SetIsPitchLoading (isPitchLoading : bool)
  | SetPitchError (pitchError : option jsstring)
  | SetPitch (pitch : jsstring)
  | SetCopied (copied : bool)
  | CallGetBusinessDetails (placeId : jsstring)
  | CallGenerateContactPitch (businessName businessCategory : jsstring)
  | CallDetailsModel (placeId : jsstring)
  | CallPitchModel (businessName businessCategory : jsstring)
  | ClipboardWriteText (text : jsstring)
  | SetTimeoutResetCopied (milliseconds : N)
  | ModalConsoleError.

Definition keyIsSet (key : option jsstring) : bool :=
  match key with
  | Some (_ :: _) => true
  | _ => false
  end.

Section Assistant.

Variable env : AssistantEnvironment.

Definition tryGetBusinessDetails (id : jsstring)
    : list ModalEvent * result (option BusinessDetails) :=
  if keyIsSet (assistant_API_KEY env) then
    ([CallDetailsModel id],
     response <- detailsContent env id ;;
     match response with
     | NoDetailsText => Throw (JsError (js "Received an empty response from the API."))
     | UnparsableDetails message => Throw (JsError message)
     | ParsedDetails details => Ok details
     end)
  else ([], Throw (JsError (js "API_KEY environment variable not set"))).

Definition rethrowDetails (t : thrown) : thrown :=
  match t with
  | JsError message => JsError (js "Failed to get business details: " ++ message)
  | NonError => JsError (js "An unknown error occurred while fetching business details.")
  end.

Definition getBusinessDetails (id : jsstring)
    : list ModalEvent * result (option BusinessDetails) :=
  match tryGetBusinessDetails id with
  | (events, Ok details) => (events, Ok details)
  | (events, Throw t) => (events ++ [ModalConsoleError], Throw (rethrowDetails t))
  end.

Definition tryGenerateContactPitch (businessName businessCategory : jsstring)
    : list ModalEvent * result jsstring :=
  if keyIsSet (assistant_API_KEY env) then
    ([CallPitchModel businessName businessCategory],
     response <- pitchContent env businessName businessCategory ;;
     match response with
     | Some (c :: text) => Ok (c :: text)
     | Some [] | None => Throw (JsError (js "Received an empty response from the API."))
     end)
  else ([], Throw (JsError (js "API_KEY environment variable not set"))).

Definition rethrowPitch (t : thrown) : thrown :=
  match t with
  | JsError message => JsError (js "Failed to generate pitch: " ++ message)
  | NonError => JsError (js "An unknown error occurred while generating the contact pitch.")
  end.

Definition generateContactPitch (businessName businessCategory : jsstring)
    : list ModalEvent * result jsstring :=
  match tryGenerateContactPitch businessName businessCategory with
  | (events, Ok text) => (events, Ok text)
  | (events, Throw t) => (events ++ [ModalConsoleError], Throw (rethrowPitch t))
  end.

(** * components/BusinessDetailModal.tsx *)

(** The effect run for a [placeId]. *)
Definition fetchDetails (business : Business) : list ModalEvent :=
  let (events, r) := getBusinessDetails (placeId business) in
  [SetModalIsLoading true; SetModalError None]
  ++ [CallGetBusinessDetails (placeId business)]
  ++ events
  ++ match r with
     | Ok details => [SetDetails details]
     | Throw (JsError message) => [SetModalError (Some message)]
     | Throw NonError =>
         [SetModalError (Some (js "An unknown error occurred while fetching details."))]
     end
  ++ [SetModalIsLoading false].

Definition NO_CATEGORY : jsstring :=
  js "Business category is not available. Please perform a search first.".

Definition handleGeneratePitch (business : Business) (category : jsstring)
    : list ModalEvent :=
  let (events, r) :=
    match category with
    | [] => ([], Throw (JsError NO_CATEGORY))
    | _ :: _ =>
        let (events, r) := generateContactPitch (title business) category in
        (CallGenerateContactPitch (title business) category :: events, r)
    end in
  [SetIsPitchLoading true; SetPitchError None; SetPitch []]
  ++ events
  ++ match r with
     | Ok text => [SetPitch text]
     | Throw (JsError message) => [SetPitchError (Some message)]
     | Throw NonError =>
         [SetPitchError (Some (js "An unknown error occurred while generating the pitch."))]
     end
  ++ [SetIsPitchLoading false].

End Assistant.

(** The state of the modal. *)
Record ModalState : Type := {
  details : option BusinessDetails;
  modal_isLoading : bool;
  modal_error : option jsstring;
  pitch : jsstring;
  isPitchLoading : bool;
  pitchError : option jsstring;
  copied : bool
}.

Definition initialModal : ModalState :=
  {| details := None; modal_isLoading := true; modal_error := None;
     pitch := []; isPitchLoading := false; pitchError := None; copied := false |}.

Definition handleCopyPitch (st : ModalState) : list ModalEvent :=
  match pitch st with
  | [] => []
  | _ :: _ =>
      [ClipboardWriteText (pitch st); SetCopied true; SetTimeoutResetCopied 2000]
  end.

(** The state setters of the modal, applied in order. *)
Definition setModalState (st : ModalState) (e : ModalEvent) : ModalState :=
  match e with
  | SetModalIsLoading b =>
      {| details := details st; modal_isLoading := b; modal_error := modal_error st;
         pitch := pitch st; isPitchLoading := isPitchLoading st;
         pitchError := pitchError st; copied := copied st |}
  | SetModalError x =>
      {| details := details st; modal_isLoading := modal_isLoading st; modal_error := x;
         pitch := pitch st; isPitchLoading := isPitchLoading st;
         pitchError := pitchError st; copied := copied st |}
  | SetDetails d =>
      {| details := d; modal_isLoading := modal_isLoading st;
         modal_error := modal_error st;
         pitch := pitch st; isPitchLoading := isPitchLoading st;
         pitchError := pitchError st; copied := copied st |}
  | SetIsPitchLoading b =>
      {| details := details st; modal_isLoading := modal_isLoading st;
         modal_error := modal_error st;
         pitch := pitch st; isPitchLoading := b;
         pitchError := pitchError st; copied := copied st |}
  | SetPitchError x =>
      {| details := details st; modal_isLoading := modal_isLoading st;
         modal_error := modal_error st;
         pitch := pitch st; isPitchLoading := isPitchLoading st;
         pitchError := x; copied := copied st |}
  | SetPitch s =>
      {| details := details st; modal_isLoading := modal_isLoading st;
         modal_error := modal_error st;
         pitch := s; isPitchLoading := isPitchLoading st;
         pitchError := pitchError st; copied := copied st |}
  | SetCopied b =>
      {| details := details st; modal_isLoading := modal_isLoading st;
         modal_error := modal_error st;
         pitch := pitch st; isPitchLoading := isPitchLoading st;
         pitchError := pitchError st; copied := b |}
  | CallGetBusinessDetails _ | CallGenerateContactPitch _ _ | CallDetailsModel _
  | CallPitchModel _ _ | ClipboardWriteText _ | SetTimeoutResetCopied _
  | ModalConsoleError => st
  end.

Definition afterModal (events : list ModalEvent) (st : ModalState) : ModalState :=
  fold_left setModalState events st.

(** A row made by [renderDetailItem]: its text and, for a link, its [href]. *)
Record DetailRow : Type := {
  row_text : jsstring;
  row_href : option jsstring
}.

(** [renderDetailItem(Icon, text, href)]: nothing for a falsy text; a link
    for a truthy [href]. *)
Definition renderDetailItem (text : option jsstring) (href : option jsstring)
    : option DetailRow :=
  match text with
  | Some (c :: t) =>
      Some {| row_text := c :: t;
              row_href := match href with
                          | Some (h :: ref) => Some (h :: ref)
                          | _ => None
                          end |}
  | _ => None
  end.

(** [`tel:${details.phone}`]: an absent phone is printed as [undefined]. *)
Definition telHref (phone : option jsstring) : jsstring :=
  js "tel:" ++ match phone with
               | Some p => p
               | None => js "undefined"
               end.

(** The rows of address, phone and website, those that render. *)
Definition detailRows (d : BusinessDetails) : list DetailRow :=
  let optional (r : option DetailRow) := match r with Some x => [x] | None => [] end in
  optional (renderDetailItem (address d) None)
  ++ optional (renderDetailItem (phone d) (Some (telHref (phone d))))
  ++ match website d with
     | Some (c :: w) => optional (renderDetailItem (website d) (website d))
     | _ => []
     end.

(** The lines of opening hours, when the list is present and not empty. *)
Definition hoursShown (d : BusinessDetails) : option (list jsstring) :=
  match hours d with
  | Some (l :: ls) => Some (l :: ls)
  | _ => None
  end.

(** The body of the modal: the loader, the error text and the details,
    each when its condition holds. *)
Record ModalBody : Type := {
  body_loader : bool;
  body_error : option jsstring;
  body_details : option (list DetailRow * option (list jsstring))
}.

Definition renderBody (st : ModalState) : ModalBody :=
  let errorShown :=
    match modal_error st with
    | Some (c :: message) => Some (c :: message)
    | _ => None
    end in
  {| body_loader := modal_isLoading st;
     body_error := errorShown;
     body_details :=
       match modal_isLoading st, errorShown, details st with
       | false, None, Some d => Some (detailRows d, hoursShown d)
       | _, _, _ => None
       end |}.

(** The pitch area shows the text and the copy button when [pitch] is
    truthy, and the error when [pitchError] is. *)
Definition pitchShown (st : ModalState) : option jsstring :=
  match pitch st with
  | [] => None
  | c :: t => Some (c :: t)
  end.

Definition pitchErrorShown (st : ModalState) : option jsstring :=
  match pitchError st with
  | Some (c :: message) => Some (c :: message)
  | _ => None
  end.

(** * Further sample data *)

(** An environment whose model grounds every answer on two map chunks, one
    of them without a place. *)
Definition groundedEnvironment : Environment :=
  {| API_KEY := Some (js "key");
     generateContent := fun _ =>
       Ok {| text := NoText;
             groundingChunks :=
               Some [ {| maps := Some {| maps_uri := js "https://maps.example/abc";
                                         maps_title := js "Grounded Cafe";
                                         maps_placeId := js "abc" |} |};
                      {| maps := None |} ] |};
     encodeURIComponent := fun s => Ok s |}.

(** An environment whose model answers with one business and its
    coordinates. *)
Definition answeringEnvironment : Environment :=
  {| API_KEY := Some (js "key");
     generateContent := fun _ =>
       Ok {| text := Parsed (Some [ {| parsed_title := js "Cafe";
                                       parsed_placeId := js "abc";
                                       parsed_latitude := Some 40.0078125%float;
                                       parsed_longitude := Some (-74.0078125)%float |} ]);
             groundingChunks := None |};
     encodeURIComponent := fun s => Ok s |}.

Definition sampleDetails : BusinessDetails :=
  {| address := Some (js "1 Main Street");
     phone := Some (js "+1 212 555 0100");
     hours := Some [js "Monday: 9-17"];
     website := None |}.

(** An assistant that knows the details of every place and writes the same
    pitch for every business. *)
Definition helpfulAssistant : AssistantEnvironment :=
  {| assistant_API_KEY := Some (js "key");
     detailsContent := fun _ => Ok (ParsedDetails (Some sampleDetails));
     pitchContent := fun _ _ => Ok (Some (js "Hello, I would like to know more.")) |}.

(** An assistant whose model rejects every request. *)
Definition failingAssistant : AssistantEnvironment :=
  {| assistant_API_KEY := Some (js "key");
     detailsContent := fun _ => Throw (JsError (js "quota exceeded"));
     pitchContent := fun _ _ => Throw (JsError (js "quota exceeded")) |}.

(** The events of a handler that call a service or the model. *)
Definition isModalCall (e : ModalEvent) : bool :=
  match e with
  | CallGetBusinessDetails _ | CallGenerateContactPitch _ _
  | CallDetailsModel _ | CallPitchModel _ _ => true
  | _ => false
  end.

(** The request [handleSearch] has the lookup send. *)
Definition requestOf (st : SearchState) : Request :=
  match location st with
  | Some loc => NearCoordinates (searchTerm st) loc
  | None => InPlace (searchTerm st) (manualLocation st)
  end.

(** ** Tabulated values of the engine's [Math] *)

(** [s] with the sign of [x]. *)
Definition withSignOf (x s : float) : float :=
  if (x <? 0)%float then (- s)%float else s.

(** The engine's [Math] at the arguments the examples below need: the sine
    of 8, 20 and 90 degrees, the cosine of 8 and 40 degrees and one arc
    tangent, each the double nearest to the exact value; elsewhere the
    small-angle approximations. The arguments are the doubles [getDistance]
    computes from the degrees. *)
Definition tabulatedMath : MathObject :=
  {| Math_sin := fun x =>
       if (abs x =? 0x1.1df46a2529d39p-3)%float then withSignOf x 0x1.1d06c968d9e19p-3
       else if (abs x =? 0x1.657184ae74487p-2)%float then withSignOf x 0x1.5e3a8748a0bf5p-2
       else if (abs x =? 0x1.921fb54442d18p+0)%float then withSignOf x 1
       else x;
     Math_cos := fun x =>
       if (abs x =? 0x1.1df46a2529d39p-3)%float then 0x1.fb046a930947ap-1%float
       else if (abs x =? 0x1.657184ae74487p-1)%float then 0x1.8836fa2cf5039p-1%float
       else 1%float;
     Math_atan2 := fun y x =>
       if ((y =? 0x1.5e3a8748a0bf5p-2) && (x =? 0x1.e11f642522d1cp-1))%float
       then 0x1.657184ae74487p-2%float
       else (y / x)%float |}.

(** Two antipodal points, 8 degrees north and south of the equator. *)
Definition north8 : LocationCoords :=
  {| coords_latitude := 8%float; coords_longitude := 0%float |}.

Definition south8 : LocationCoords :=
  {| coords_latitude := (-8)%float; coords_longitude := 180%float |}.

(** The symmetry of the distance in the words of the specification:
    [distance(A,B) == distance(B,A)], with the [==] of numbers. *)
Definition symmetricByEquals (Math : MathObject) : Prop :=
  forall A B, (getDistance Math A B =? getDistance Math B A)%float = true.

(** ** Loading the page anew *)

(** The favorites after the page is loaded with a stored item: the initial
    state [useState([])] and then the load effect. *)
Definition mountFavorites (item : StoredItem) : Favorites :=
  loadFavorites {| favorites := []; favoriteBusinesses := item |}.

(** A coordinate that is absent or not an infinity. *)
Definition notInfinite (x : option float) : Prop :=
  match x with
  | Some v => is_infinity v = false
  | None => True
  end.

(** * Facts about binary64 numbers *)

Module Binary64Facts.
Import Binary64.
Local Open Scope Z_scope.

Lemma emin_value : emin = -1074.
Proof. reflexivity. Qed.

(** [digits2_pos p] is the bit length of [p]. *)
Lemma digits2_pos_bounds (p : positive) :
  2 ^ (Z.pos (digits2_pos p) - 1) <= Z.pos p < 2 ^ Z.pos (digits2_pos p).
Proof.
  induction p as [p IH | p IH |]; cbn [digits2_pos].
  - rewrite Pos2Z.inj_succ, Z.pow_succ_r by lia.
    replace (Z.succ (Z.pos (digits2_pos p)) - 1) with (Z.succ (Z.pos (digits2_pos p) - 1)) by lia.
    rewrite Z.pow_succ_r by lia. lia.
  - rewrite Pos2Z.inj_succ, Z.pow_succ_r by lia.
    replace (Z.succ (Z.pos (digits2_pos p)) - 1) with (Z.succ (Z.pos (digits2_pos p) - 1)) by lia.
    rewrite Z.pow_succ_r by lia. lia.
  - cbn. lia.
Qed.

Lemma Zdigits2_bounds (m : Z) :
  0 < m -> 2 ^ (Zdigits2 m - 1) <= m < 2 ^ Zdigits2 m.
Proof.
  destruct m as [|p|p]; try lia. intros _. apply digits2_pos_bounds.
Qed.

Lemma Zdigits2_pos (m : Z) : 0 < m -> 0 < Zdigits2 m.
Proof. destruct m; simpl; lia. Qed.

(** The bit length is determined by the power-of-two bracket. *)
Lemma Zdigits2_unique (m d : Z) :
  0 < m -> 2 ^ (d - 1) <= m < 2 ^ d -> 0 < d -> Zdigits2 m = d.
Proof.
  intros Hm [Hlo Hhi] Hd.
  destruct (Zdigits2_bounds m Hm) as [Hlo' Hhi'].
  pose proof (Zdigits2_pos m Hm) as Hd'.
  destruct (Z.lt_trichotomy (Zdigits2 m) d) as [Hlt | [Heq | Hgt]]; [exfalso | assumption | exfalso].
  - assert (2 ^ Zdigits2 m <= 2 ^ (d - 1)) by (apply Z.pow_le_mono_r; lia). lia.
  - assert (2 ^ d <= 2 ^ (Zdigits2 m - 1)) by (apply Z.pow_le_mono_r; lia). lia.
Qed.

Lemma Zdigits2_le (m d : Z) : 0 < m -> 0 <= d -> m < 2 ^ d -> Zdigits2 m <= d.
Proof.
  intros Hm Hd Hlt.
  destruct (Zdigits2_bounds m Hm) as [Hlo _].
  destruct (Z_le_gt_dec (Zdigits2 m) d) as [|Hgt]; [assumption|exfalso].
  assert (2 ^ d <= 2 ^ (Zdigits2 m - 1)) by (apply Z.pow_le_mono_r; lia). lia.
Qed.


Abbreviation fexp := (SpecFloat.fexp prec emax).

Lemma fexp_value (e : Z) : fexp e = Z.max (e - 53) (-1074).
Proof. reflexivity. Qed.

(** One right shift halves the mantissa. *)
Lemma shr_1_m (mrs : shr_record) :
  0 <= shr_m mrs -> shr_m (shr_1 mrs) = shr_m mrs / 2.
Proof.
  destruct mrs as [m r s]. destruct m as [|[p|p|]|p]; cbn [shr_m shr_1]; intros H.
  - reflexivity.
  - apply Z.div_unique with (r := 1); lia.
  - apply Z.div_unique with (r := 0); lia.
  - reflexivity.
  - lia.
Qed.

Lemma iter_pos_iter {A : Type} (f : A -> A) (p : positive) (x : A) :
  iter_pos f p x = Pos.iter f x p.
Proof.
  revert x. induction p as [p IH | p IH |]; intros x; cbn [iter_pos Pos.iter].
  - rewrite !IH, !Pos.iter_swap. reflexivity.
  - rewrite !IH. reflexivity.
  - reflexivity.
Qed.

Lemma shr_m_iter (p : positive) (mrs : shr_record) :
  0 <= shr_m mrs ->
  shr_m (iter_pos shr_1 p mrs) = shr_m mrs / 2 ^ Z.pos p.
Proof.
  intros Hm. rewrite iter_pos_iter.
  induction p as [|p IH] using Pos.peano_ind.
  - cbn [Pos.iter]. rewrite shr_1_m by assumption. reflexivity.
  - rewrite Pos.iter_succ, shr_1_m.
    + rewrite IH, Pos2Z.inj_succ, Z.pow_succ_r by lia.
      rewrite Z.div_div by (try apply Z.pow_pos_nonneg; lia).
      f_equal. lia.
    + rewrite IH. apply Z.div_pos; [assumption | apply Z.pow_pos_nonneg; lia].
Qed.

Lemma shr_m_of_loc (m : Z) (l : SpecFloat.location) : shr_m (shr_record_of_loc m l) = m.
Proof. destruct l as [|[]]; reflexivity. Qed.

(** What [shr_fexp] does to the mantissa and the exponent. *)
Lemma shr_fexp_eq (m e : Z) (l : SpecFloat.location) (mrs : shr_record) (e' : Z) :
  0 <= m ->
  shr_fexp prec emax m e l = (mrs, e') ->
  e' = Z.max e (fexp (Zdigits2 m + e)) /\ shr_m mrs = m / 2 ^ (e' - e).
Proof.
  intros Hm. unfold shr_fexp, shr.
  destruct (fexp (Zdigits2 m + e) - e) as [|p|p] eqn:Hn; intros [= <- <-].
  - split; [lia|]. rewrite shr_m_of_loc, Z.sub_diag. cbn. symmetry. apply Z.div_1_r.
  - split; [lia|]. rewrite shr_m_iter by (rewrite shr_m_of_loc; assumption).
    rewrite shr_m_of_loc. f_equal. f_equal. lia.
  - split; [lia|]. rewrite shr_m_of_loc, Z.sub_diag. cbn. symmetry. apply Z.div_1_r.
Qed.

Lemma round_nearest_even_bounds (m : Z) (l : SpecFloat.location) :
  m <= round_nearest_even m l <= m + 1.
Proof. destruct l as [|[]]; cbn [round_nearest_even]; try destruct (Z.even m); lia. Qed.

(** A positive mantissa at an exponent no smaller than [emin] keeps a
    positive mantissa through [shr_fexp]. *)
Lemma shr_fexp_pos (m e : Z) (l : SpecFloat.location) (mrs : shr_record) (e' : Z) :
  0 < m -> emin <= e ->
  shr_fexp prec emax m e l = (mrs, e') ->
  0 < shr_m mrs /\ emin <= e'.
Proof.
  intros Hm He Hs. apply shr_fexp_eq in Hs; [|lia]. destruct Hs as [-> ->].
  rewrite fexp_value. rewrite emin_value in *.
  pose proof (Zdigits2_bounds m Hm) as [Hlo _].
  pose proof (Zdigits2_pos m Hm) as Hd.
  split; [|lia].
  apply Z.div_str_pos. split; [apply Z.pow_pos_nonneg; lia|].
  apply Z.le_trans with (2 ^ (Zdigits2 m - 1)); [|assumption].
  apply Z.pow_le_mono_r; lia.
Qed.

(** Rounding a non-zero value at an exponent no smaller than [emin] never
    gives a zero: the result is a finite number or an infinity of the
    requested sign. *)
Lemma binary_round_aux_nonzero (s : bool) (m e : Z) (l : SpecFloat.location) :
  0 < m -> emin <= e ->
  (exists m' e', binary_round_aux prec emax s m e l = S754_finite s m' e')
  \/ binary_round_aux prec emax s m e l = S754_infinity s.
Proof.
  intros Hm He. unfold binary_round_aux.
  destruct (shr_fexp prec emax m e l) as [mrs1 e1] eqn:H1.
  destruct (shr_fexp_pos _ _ _ _ _ Hm He H1) as [Hm1 He1].
  set (m2 := round_nearest_even (shr_m mrs1) (loc_of_shr_record mrs1)).
  assert (Hm2 : 0 < m2).
  { pose proof (round_nearest_even_bounds (shr_m mrs1) (loc_of_shr_record mrs1)). subst m2. lia. }
  destruct (shr_fexp prec emax m2 e1 loc_Exact) as [mrs2 e2] eqn:H2.
  destruct (shr_fexp_pos _ _ _ _ _ Hm2 He1 H2) as [Hm3 _].
  destruct (shr_m mrs2) as [|p|p]; try lia.
  destruct (e2 <=? emax - prec); [left; eauto | right; reflexivity].
Qed.


(** Rounding a value below [2 ^ emax] does not overflow. *)
Lemma binary_round_aux_finite (s : bool) (m e : Z) (l : SpecFloat.location) :
  0 < m -> e <= emax - prec -> Zdigits2 m + e < emax ->
  SFis_finite (binary_round_aux prec emax s m e l) = true.
Proof.
  intros Hm He Hd. unfold binary_round_aux.
  destruct (shr_fexp prec emax m e l) as [mrs1 e1] eqn:H1.
  apply shr_fexp_eq in H1; [|lia]. destruct H1 as [He1 Hm1].
  set (m2 := round_nearest_even (shr_m mrs1) (loc_of_shr_record mrs1)).
  pose proof (round_nearest_even_bounds (shr_m mrs1) (loc_of_shr_record mrs1)) as Hr.
  fold m2 in Hr.
  pose proof (Zdigits2_bounds m Hm) as [_ Hhi].
  pose proof (Zdigits2_pos m Hm) as Hdp.
  assert (Hk : 0 <= e1 - e) by lia.
  assert (Hm1' : 0 <= shr_m mrs1).
  { rewrite Hm1. apply Z.div_pos; [lia | apply Z.pow_pos_nonneg; lia]. }
  assert (Hm2 : 0 <= m2) by lia.
  destruct (shr_fexp prec emax m2 e1 loc_Exact) as [mrs2 e2] eqn:H2.
  apply shr_fexp_eq in H2; [|assumption]. destruct H2 as [He2 Hm3].
  assert (Hm3' : 0 <= shr_m mrs2).
  { rewrite Hm3. apply Z.div_pos; [lia | apply Z.pow_pos_nonneg; lia]. }
  assert (He2' : e2 <= emax - prec).
  { rewrite He2, fexp_value. rewrite fexp_value in He1.
    change emax with 1024 in *. change prec with 53 in *.
    destruct (Z.eq_dec m2 0) as [-> | Hnz]; [cbn [Zdigits2]; lia|].
    destruct (Z_le_gt_dec (e1 - e) (Zdigits2 m)) as [Hle | Hgt].
    - assert (Hb : shr_m mrs1 < 2 ^ (Zdigits2 m - (e1 - e))).
      { rewrite Hm1. apply Z.div_lt_upper_bound; [apply Z.pow_pos_nonneg; lia|].
        rewrite <- Z.pow_add_r by lia.
        replace (e1 - e + (Zdigits2 m - (e1 - e))) with (Zdigits2 m) by lia. assumption. }
      assert (Zdigits2 m2 <= Zdigits2 m - (e1 - e) + 1); [|lia].
      apply Zdigits2_le; [lia | lia |].
      rewrite Z.pow_add_r by lia. change (2 ^ 1) with 2. lia.
    - assert (Hb : shr_m mrs1 = 0).
      { rewrite Hm1. apply Z.div_small. split; [lia|].
        apply Z.lt_le_trans with (2 ^ Zdigits2 m); [assumption|].
        apply Z.pow_le_mono_r; lia. }
      assert (Zdigits2 m2 <= 1); [|lia].
      apply Zdigits2_le; [lia | lia | cbn; lia]. }
  destruct (shr_m mrs2) as [|p|p]; try lia; try reflexivity.
  apply Z.leb_le in He2'. rewrite He2'. reflexivity.
Qed.

(** The sign passes through rounding unchanged. *)
Lemma binary_round_aux_opp (s : bool) (m e : Z) (l : SpecFloat.location) :
  binary_round_aux prec emax (negb s) m e l = SFopp (binary_round_aux prec emax s m e l).
Proof.
  unfold binary_round_aux.
  destruct (shr_fexp prec emax m e l) as [mrs1 e1].
  destruct (shr_fexp prec emax _ e1 loc_Exact) as [mrs2 e2].
  destruct (shr_m mrs2); try reflexivity.
  destruct (e2 <=? emax - prec); reflexivity.
Qed.

Lemma binary_round_opp (s : bool) (m : positive) (e : Z) :
  binary_round prec emax (negb s) m e = SFopp (binary_round prec emax s m e).
Proof.
  unfold binary_round.
  destruct (shl_align m e _) as [mz ez]. apply binary_round_aux_opp.
Qed.

(** Validity of a finite number, spelled out. *)
Lemma valid_finite_bounds (s : bool) (m : positive) (e : Z) :
  valid_binary (S754_finite s m e) = true ->
  emin <= e <= emax - prec /\ Zdigits2 (Z.pos m) <= prec /\
  (emin < e -> Zdigits2 (Z.pos m) = prec).
Proof.
  cbn [SpecFloat.valid_binary]. unfold bounded, canonical_mantissa.
  rewrite andb_true_iff, Z.eqb_eq, Z.leb_le, fexp_value, emin_value.
  change prec with 53. change emax with 1024. cbn [Zdigits2]. lia.
Qed.


Lemma BIG_pos : 0 < BIG.
Proof. apply Z.pow_pos_nonneg; [lia | discriminate]. Qed.

Lemma mag_pos (m : positive) (e : Z) : emin <= e -> 0 < mag m e.
Proof.
  intros He. unfold mag. apply Z.mul_pos_pos; [lia | apply Z.pow_pos_nonneg; lia].
Qed.

Lemma mag_lt_BIG (s : bool) (m : positive) (e : Z) :
  valid_binary (S754_finite s m e) = true -> mag m e < BIG.
Proof.
  intros Hv. apply valid_finite_bounds in Hv. destruct Hv as [[Hlo Hhi] [Hd _]].
  pose proof (Zdigits2_bounds (Z.pos m) eq_refl) as [_ Hm].
  assert (Hm' : Z.pos m < 2 ^ prec).
  { apply Z.lt_le_trans with (1 := Hm). apply Z.pow_le_mono_r; [lia | assumption]. }
  unfold mag, BIG.
  assert (Hp : 0 < 2 ^ (e - emin)) by (apply Z.pow_pos_nonneg; lia).
  apply Z.lt_le_trans with (2 ^ prec * 2 ^ (e - emin)).
  - apply Z.mul_lt_mono_pos_r; assumption.
  - rewrite <- Z.pow_add_r by (change prec with 53; lia).
    apply Z.pow_le_mono_r; [lia|]. change prec with 53 in *. lia.
Qed.

(** Two valid finite numbers with different exponents are ordered by
    their exponents. *)
Lemma mag_lt (s1 s2 : bool) (m1 m2 : positive) (e1 e2 : Z) :
  valid_binary (S754_finite s1 m1 e1) = true ->
  valid_binary (S754_finite s2 m2 e2) = true ->
  e1 < e2 -> mag m1 e1 < mag m2 e2.
Proof.
  intros H1 H2 Hlt.
  apply valid_finite_bounds in H1. destruct H1 as [[Hlo1 _] [Hd1 _]].
  apply valid_finite_bounds in H2. destruct H2 as [[Hlo2 _] [_ Hd2]].
  specialize (Hd2 ltac:(lia)).
  pose proof (Zdigits2_bounds (Z.pos m1) eq_refl) as [_ Hm1].
  pose proof (Zdigits2_bounds (Z.pos m2) eq_refl) as [Hm2 _].
  rewrite Hd2 in Hm2.
  assert (Hm1' : Z.pos m1 < 2 ^ prec).
  { apply Z.lt_le_trans with (1 := Hm1). apply Z.pow_le_mono_r; [lia | assumption]. }
  unfold mag.
  assert (Ha : 0 < 2 ^ (e1 - emin)) by (apply Z.pow_pos_nonneg; lia).
  assert (Hb : 2 ^ (e2 - emin) = 2 ^ (e2 - e1 - 1) * (2 * 2 ^ (e1 - emin))).
  { rewrite <- Z.pow_succ_r, <- Z.pow_add_r by lia. f_equal. lia. }
  assert (Hc : 0 < 2 ^ (e2 - e1 - 1)) by (apply Z.pow_pos_nonneg; lia).
  rewrite Hb.
  assert (Hp : 2 ^ prec = 2 * 2 ^ (prec - 1)) by reflexivity.
  apply Z.lt_le_trans with (2 ^ prec * 2 ^ (e1 - emin)).
  - apply Z.mul_lt_mono_pos_r; assumption.
  - rewrite Hp. nia.
Qed.

Lemma mag_compare (s1 s2 : bool) (m1 m2 : positive) (e1 e2 : Z) :
  valid_binary (S754_finite s1 m1 e1) = true ->
  valid_binary (S754_finite s2 m2 e2) = true ->
  match e1 ?= e2 with
  | Lt => Lt
  | Gt => Gt
  | Eq => Pos.compare_cont Eq m1 m2
  end = (mag m1 e1 ?= mag m2 e2).
Proof.
  intros H1 H2. destruct (Z.compare_spec e1 e2) as [-> | Hlt | Hgt].
  - unfold mag. fold (Pos.compare m1 m2). rewrite Pos2Z.inj_compare.
    apply valid_finite_bounds in H2.
    assert (Hp : 0 < 2 ^ (e2 - emin)) by (apply Z.pow_pos_nonneg; lia).
    destruct (Z.compare_spec (Z.pos m1) (Z.pos m2)) as [E | L | G]; symmetry.
    + apply Z.compare_eq_iff. rewrite E. reflexivity.
    + apply Z.compare_lt_iff. apply Z.mul_lt_mono_pos_r; assumption.
    + apply Z.compare_gt_iff. apply Z.mul_lt_mono_pos_r; assumption.
  - symmetry. apply Z.compare_lt_iff. eapply mag_lt; eassumption.
  - symmetry. apply Z.compare_gt_iff. eapply mag_lt; eassumption.
Qed.

Lemma SFval_range (x : spec_float) :
  valid_binary x = true -> - BIG <= SFval x <= BIG.
Proof.
  pose proof BIG_pos.
  destruct x as [s | s | | s m e]; cbn [SFval]; intros Hv;
    try lia; try (destruct s; cbn [cond_Zopp]; lia).
  pose proof (mag_lt_BIG _ _ _ Hv). apply valid_finite_bounds in Hv.
  pose proof (mag_pos m e ltac:(lia)). destruct s; cbn [cond_Zopp]; lia.
Qed.

Lemma SFval_finite (x : spec_float) :
  valid_binary x = true -> SFis_finite x = true -> - BIG < SFval x < BIG.
Proof.
  pose proof BIG_pos.
  destruct x as [s | s | | s m e]; cbn [SFval SFis_finite]; intros Hv Hf;
    try discriminate; try lia.
  pose proof (mag_lt_BIG _ _ _ Hv). apply valid_finite_bounds in Hv.
  pose proof (mag_pos m e ltac:(lia)). destruct s; cbn [cond_Zopp]; lia.
Qed.

Local Ltac by_order :=
  f_equal; symmetry;
  first [ apply Z.compare_eq_iff; cbn [cond_Zopp] in *; lia
        | apply Z.compare_lt_iff; cbn [cond_Zopp] in *; lia
        | apply Z.compare_gt_iff; cbn [cond_Zopp] in *; lia ].

(** [SFcompare] is the comparison of the integer images. *)
Lemma SFcompare_val (x y : spec_float) :
  valid_binary x = true -> valid_binary y = true ->
  SFis_nan x = false -> SFis_nan y = false ->
  SFcompare x y = Some (SFval x ?= SFval y).
Proof.
  intros Hx Hy Nx Ny. pose proof BIG_pos as HB.
  destruct x as [sx | sx | | sx mx ex]; try discriminate;
  destruct y as [sy | sy | | sy my ey]; try discriminate.
  - reflexivity.
  - cbn [SFcompare SFval]. destruct sy; by_order.
  - pose proof (SFval_finite _ Hy eq_refl) as Hr. cbn [SFval] in *.
    apply valid_finite_bounds in Hy. pose proof (mag_pos my ey ltac:(lia)).
    cbn [SFcompare]. destruct sy; by_order.
  - cbn [SFcompare SFval]. destruct sx; by_order.
  - cbn [SFcompare SFval]. destruct sx, sy; by_order.
  - pose proof (SFval_finite _ Hy eq_refl) as Hr. cbn [SFval] in *.
    cbn [SFcompare]. destruct sx; by_order.
  - pose proof (SFval_finite _ Hx eq_refl) as Hr. cbn [SFval] in *.
    apply valid_finite_bounds in Hx. pose proof (mag_pos mx ex ltac:(lia)).
    cbn [SFcompare]. destruct sx; by_order.
  - pose proof (SFval_finite _ Hx eq_refl) as Hr. cbn [SFval] in *.
    cbn [SFcompare]. destruct sy; by_order.
  - pose proof (mag_compare _ _ _ _ _ _ Hx Hy) as Hc.
    pose proof (mag_compare _ _ _ _ _ _ Hy Hx) as Hc'.
    apply valid_finite_bounds in Hx, Hy.
    pose proof (mag_pos mx ex ltac:(lia)). pose proof (mag_pos my ey ltac:(lia)).
    cbn [SFcompare SFval]. destruct sx, sy.
    + cbn [cond_Zopp]. rewrite Z.compare_opp, <- Hc'. f_equal.
      rewrite (Z.compare_antisym ey ex).
      destruct (ey ?= ex); cbn [CompOpp]; try reflexivity.
      rewrite Pos.compare_cont_antisym. reflexivity.
    + by_order.
    + by_order.
    + cbn [cond_Zopp]. rewrite <- Hc. reflexivity.
Qed.


Lemma pos_iter_xO (m d : positive) : Z.pos (Pos.iter xO m d) = Z.pos m * 2 ^ Z.pos d.
Proof.
  induction d as [|d IH] using Pos.peano_ind.
  - cbn [Pos.iter]. rewrite Pos2Z.inj_xO. change (2 ^ 1) with 2. lia.
  - rewrite Pos.iter_succ, Pos2Z.inj_xO, IH, Pos2Z.inj_succ, Z.pow_succ_r by lia. lia.
Qed.

Lemma shl_align_fst (m : positive) (e e' : Z) :
  e' <= e -> Z.pos (fst (shl_align m e e')) = Z.pos m * 2 ^ (e - e').
Proof.
  intros He. unfold shl_align. destruct (e' - e) as [|d|d] eqn:Hd; cbn [fst].
  - replace (e - e') with 0 by lia. cbn. lia.
  - lia.
  - rewrite pos_iter_xO. f_equal. f_equal. lia.
Qed.

Lemma shl_align_snd (m : positive) (e e' : Z) :
  snd (shl_align m e e') = Z.min e e'.
Proof.
  unfold shl_align. destruct (e' - e) as [|d|d] eqn:Hd; cbn [snd]; lia.
Qed.

Lemma binary_round_nonzero (s : bool) (m : positive) (e : Z) :
  emin <= e ->
  (exists m' e', binary_round prec emax s m e = S754_finite s m' e')
  \/ binary_round prec emax s m e = S754_infinity s.
Proof.
  intros He. unfold binary_round.
  pose proof (shl_align_snd m e (fexp (Z.pos (digits2_pos m) + e))) as Hs.
  destruct (shl_align m e _) as [mz ez]. cbn [snd] in Hs.
  apply binary_round_aux_nonzero; [reflexivity|].
  rewrite Hs, fexp_value, emin_value in *. lia.
Qed.

(** The aligned mantissas of a subtraction carry the integer images. *)
Lemma aligned_val (s : bool) (m : positive) (e ez : Z) :
  emin <= ez <= e ->
  cond_Zopp s (Z.pos (fst (shl_align m e ez))) * 2 ^ (ez - emin)
  = SFval (S754_finite s m e).
Proof.
  intros He. rewrite shl_align_fst by lia. cbn [SFval]. unfold mag.
  replace (e - emin) with ((e - ez) + (ez - emin)) by lia.
  rewrite Z.pow_add_r by lia. destruct s; cbn [cond_Zopp]; lia.
Qed.

(** The sign of a difference is the order of its operands: a rounded
    difference of two distinct numbers is never zero. *)
Lemma SFsub_positive (x y : spec_float) :
  valid_binary x = true -> valid_binary y = true ->
  SFis_nan x = false -> SFis_nan y = false ->
  SFltb (S754_zero false) (SFsub prec emax x y) = (SFval y <? SFval x).
Proof.
  intros Hx Hy Nx Ny. pose proof BIG_pos as HB.
  pose proof (SFval_range x Hx) as Rx. pose proof (SFval_range y Hy) as Ry.
  destruct x as [sx | sx | | sx mx ex]; try discriminate;
  destruct y as [sy | sy | | sy my ey]; try discriminate.
  - cbn [SFsub SFval]. destruct sx, sy; reflexivity.
  - cbn [SFsub SFval]. destruct sy; cbn [negb cond_Zopp]; symmetry;
      [apply Z.ltb_lt | apply Z.ltb_ge]; lia.
  - pose proof (SFval_finite _ Hy eq_refl) as Hr. cbn [SFval] in *.
    apply valid_finite_bounds in Hy. pose proof (mag_pos my ey ltac:(lia)).
    cbn [SFsub]. destruct sy; cbn [negb cond_Zopp] in *; symmetry;
      [apply Z.ltb_lt | apply Z.ltb_ge]; lia.
  - cbn [SFsub SFval]. destruct sx; cbn [cond_Zopp]; symmetry;
      [apply Z.ltb_ge | apply Z.ltb_lt]; lia.
  - cbn [SFsub SFval]. destruct sx, sy; cbn [cond_Zopp]; symmetry;
      first [apply Z.ltb_ge; lia | apply Z.ltb_lt; lia].
  - pose proof (SFval_finite _ Hy eq_refl) as Hr. cbn [SFval] in *.
    cbn [SFsub]. destruct sx; cbn [cond_Zopp] in *; symmetry;
      [apply Z.ltb_ge | apply Z.ltb_lt]; lia.
  - pose proof (SFval_finite _ Hx eq_refl) as Hr. cbn [SFval] in *.
    apply valid_finite_bounds in Hx. pose proof (mag_pos mx ex ltac:(lia)).
    cbn [SFsub]. destruct sx; cbn [cond_Zopp] in *; symmetry;
      [apply Z.ltb_ge | apply Z.ltb_lt]; lia.
  - pose proof (SFval_finite _ Hx eq_refl) as Hr. cbn [SFval] in *.
    cbn [SFsub]. destruct sy; cbn [negb cond_Zopp] in *; symmetry;
      [apply Z.ltb_lt | apply Z.ltb_ge]; lia.
  - clear Rx Ry. apply valid_finite_bounds in Hx, Hy.
    cbn [SFsub]. set (ez := Z.min ex ey).
    pose proof (aligned_val sx mx ex ez ltac:(lia)) as Ax.
    pose proof (aligned_val sy my ey ez ltac:(lia)) as Ay.
    rewrite <- Ax, <- Ay.
    set (a := cond_Zopp sx (Z.pos (fst (shl_align mx ex ez)))).
    set (b := cond_Zopp sy (Z.pos (fst (shl_align my ey ez)))).
    assert (Hp : 0 < 2 ^ (ez - emin)) by (apply Z.pow_pos_nonneg; lia).
    unfold binary_normalize. destruct (a - b) as [|d|d] eqn:Hd.
    + symmetry. apply Z.ltb_ge. assert (a = b) as -> by lia. lia.
    + destruct (binary_round_nonzero false d ez ltac:(lia)) as [(m' & e' & ->) | ->];
        symmetry; apply Z.ltb_lt; apply Z.mul_lt_mono_pos_r; lia.
    + destruct (binary_round_nonzero true d ez ltac:(lia)) as [(m' & e' & ->) | ->];
        symmetry; apply Z.ltb_ge; apply Z.mul_le_mono_nonneg_r; lia.
Qed.


(** ** Algebra of the specified operations *)

Lemma SFopp_involutive (x : spec_float) : SFopp (SFopp x) = x.
Proof. destruct x as [s | s | | s m e]; cbn; rewrite ?negb_involutive; reflexivity. Qed.

Lemma SFmul_comm (x y : spec_float) : SFmul prec emax x y = SFmul prec emax y x.
Proof.
  destruct x as [sx | sx | | sx mx ex], y as [sy | sy | | sy my ey];
    cbn [SFmul]; rewrite ?(xorb_comm sx sy); try reflexivity.
  rewrite (Pos.mul_comm mx my), (Z.add_comm ex ey). reflexivity.
Qed.

Lemma SFmul_opp_l (x y : spec_float) :
  SFmul prec emax (SFopp x) y = SFopp (SFmul prec emax x y).
Proof.
  destruct x as [sx | sx | | sx mx ex], y as [sy | sy | | sy my ey];
    cbn [SFmul SFopp]; rewrite <- ?negb_xorb_l; try reflexivity.
  apply binary_round_aux_opp.
Qed.

Lemma SFmul_opp_r (x y : spec_float) :
  SFmul prec emax x (SFopp y) = SFopp (SFmul prec emax x y).
Proof. rewrite SFmul_comm, SFmul_opp_l, SFmul_comm. reflexivity. Qed.

Lemma SFdiv_opp_l (x y : spec_float) :
  SFdiv prec emax (SFopp x) y = SFopp (SFdiv prec emax x y).
Proof.
  destruct x as [sx | sx | | sx mx ex], y as [sy | sy | | sy my ey];
    cbn [SFdiv SFopp]; rewrite <- ?negb_xorb_l; try reflexivity.
  destruct (SFdiv_core_binary prec emax (Z.pos mx) ex (Z.pos my) ey) as [[mz ez] lz].
  apply binary_round_aux_opp.
Qed.

(** Exchanging the operands of a subtraction negates the result, except
    that a zero difference of equal operands is [+0] both ways. *)
Lemma SFsub_swap (x y : spec_float) :
  SFsub prec emax y x = SFopp (SFsub prec emax x y)
  \/ (SFsub prec emax x y = S754_zero false /\ SFsub prec emax y x = S754_zero false).
Proof.
  destruct x as [sx | sx | | sx mx ex], y as [sy | sy | | sy my ey];
    cbn [SFsub SFopp];
    try (left; reflexivity);
    try (destruct sx, sy; cbn; auto; fail);
    try (left; rewrite ?negb_involutive; reflexivity).
  rewrite (Z.min_comm ey ex). set (ez := Z.min ex ey).
  set (a := cond_Zopp sx (Z.pos (fst (shl_align mx ex ez)))).
  set (b := cond_Zopp sy (Z.pos (fst (shl_align my ey ez)))).
  replace (b - a) with (- (a - b)) by lia.
  destruct (a - b) as [|d|d]; cbn [Z.opp binary_normalize].
  - right. split; reflexivity.
  - left. apply (binary_round_opp false).
  - left. rewrite <- (binary_round_opp true). reflexivity.
Qed.

Lemma SFsub_diag (x : spec_float) :
  SFis_finite x = true -> SFsub prec emax x x = S754_zero false.
Proof.
  destruct x as [s | s | | s m e]; try discriminate; intros _; cbn [SFsub].
  - destruct s; reflexivity.
  - rewrite Z.sub_diag. reflexivity.
Qed.

Lemma Zdigits2_mul (a b : positive) :
  Zdigits2 (Z.pos (a * b)) <= Zdigits2 (Z.pos a) + Zdigits2 (Z.pos b).
Proof.
  pose proof (Zdigits2_bounds (Z.pos a) eq_refl) as [_ Ha].
  pose proof (Zdigits2_bounds (Z.pos b) eq_refl) as [_ Hb].
  pose proof (Zdigits2_pos (Z.pos a) eq_refl).
  pose proof (Zdigits2_pos (Z.pos b) eq_refl).
  apply Zdigits2_le; [reflexivity | lia |].
  rewrite Z.pow_add_r, Pos2Z.inj_mul by lia. nia.
Qed.

(** A product of finite numbers whose exponents leave room stays finite. *)
Lemma SFmul_finite (sx sy : bool) (mx my : positive) (ex ey : Z) :
  valid_binary (S754_finite sx mx ex) = true ->
  valid_binary (S754_finite sy my ey) = true ->
  ex + ey <= emax - 2 * prec - 1 ->
  SFis_finite (SFmul prec emax (S754_finite sx mx ex) (S754_finite sy my ey)) = true.
Proof.
  intros Hx Hy He. cbn [SFmul].
  apply valid_finite_bounds in Hx, Hy.
  pose proof (Zdigits2_mul mx my).
  change prec with 53 in *. change emax with 1024 in *.
  apply binary_round_aux_finite; [reflexivity | change prec with 53; change emax with 1024; lia |].
  change emax with 1024. lia.
Qed.


(** ** The same facts on the primitive numbers *)

Lemma SFcompare_refl (x : spec_float) :
  SFis_nan x = false -> SFcompare x x = Some Eq.
Proof.
  destruct x as [s | s | | s m e]; try discriminate; intros _; cbn [SFcompare].
  - reflexivity.
  - destruct s; reflexivity.
  - rewrite Z.compare_refl. fold (Pos.compare m m). rewrite Pos.compare_refl.
    destruct s; reflexivity.
Qed.

Lemma is_nan_spec (x : float) : is_nan x = SFis_nan (Prim2SF x).
Proof.
  unfold is_nan. rewrite FloatAxioms.eqb_spec. unfold SFeqb.
  destruct (SFis_nan (Prim2SF x)) eqn:Hn.
  - destruct (Prim2SF x); try discriminate. reflexivity.
  - rewrite SFcompare_refl by assumption. reflexivity.
Qed.

Lemma is_infinity_spec (x : float) :
  is_infinity x = match Prim2SF x with S754_infinity _ => true | _ => false end.
Proof.
  unfold is_infinity. rewrite FloatAxioms.eqb_spec, abs_spec.
  change (Prim2SF infinity) with (S754_infinity false).
  destruct (Prim2SF x) as [s | s | | s m e]; reflexivity.
Qed.

Lemma is_finite_spec (x : float) : is_finite x = SFis_finite (Prim2SF x).
Proof.
  unfold is_finite. rewrite is_nan_spec, is_infinity_spec.
  destruct (Prim2SF x) as [s | s | | s m e]; reflexivity.
Qed.

Local Open Scope float_scope.

Lemma compare_val (x y : float) :
  is_nan x = false -> is_nan y = false ->
  SFcompare (Prim2SF x) (Prim2SF y) = Some (val x ?= val y)%Z.
Proof.
  rewrite !is_nan_spec. intros Nx Ny.
  apply SFcompare_val; auto using Prim2SF_valid.
Qed.

Lemma ltb_val (x y : float) :
  is_nan x = false -> is_nan y = false -> (x <? y) = (val x <? val y)%Z.
Proof.
  intros Nx Ny. rewrite FloatAxioms.ltb_spec. unfold SFltb, Z.ltb.
  rewrite compare_val by assumption. reflexivity.
Qed.

Lemma leb_val (x y : float) :
  is_nan x = false -> is_nan y = false -> (x <=? y) = (val x <=? val y)%Z.
Proof.
  intros Nx Ny. rewrite FloatAxioms.leb_spec. unfold SFleb, Z.leb.
  rewrite compare_val by assumption. destruct (val x ?= val y)%Z; reflexivity.
Qed.

Lemma eqb_val (x y : float) :
  is_nan x = false -> is_nan y = false -> (x =? y) = (val x =? val y)%Z.
Proof.
  intros Nx Ny. rewrite FloatAxioms.eqb_spec. unfold SFeqb.
  rewrite compare_val by assumption.
  destruct (Z.compare_spec (val x) (val y)); symmetry;
    [apply Z.eqb_eq | apply Z.eqb_neq | apply Z.eqb_neq]; lia.
Qed.

(** A comparison that holds has no NaN operand. *)
Lemma leb_not_nan (x y : float) :
  (x <=? y) = true -> is_nan x = false /\ is_nan y = false.
Proof.
  rewrite FloatAxioms.leb_spec, !is_nan_spec. unfold SFleb.
  destruct (Prim2SF x), (Prim2SF y); cbn; intros H; try discriminate; auto.
Qed.

Lemma eqb_not_nan (x y : float) :
  (x =? y) = true -> is_nan x = false /\ is_nan y = false.
Proof.
  rewrite FloatAxioms.eqb_spec, !is_nan_spec. unfold SFeqb.
  destruct (Prim2SF x), (Prim2SF y); cbn; intros H; try discriminate; auto.
Qed.

Lemma ltb_not_nan (x y : float) :
  (x <? y) = true -> is_nan x = false /\ is_nan y = false.
Proof.
  rewrite FloatAxioms.ltb_spec, !is_nan_spec. unfold SFltb.
  destruct (Prim2SF x), (Prim2SF y); cbn; intros H; try discriminate; auto.
Qed.

Lemma val_infinity : val infinity = BIG.
Proof. reflexivity. Qed.

Lemma val_zero : val 0 = 0%Z.
Proof. reflexivity. Qed.

Lemma val_le_BIG (x : float) : (val x <= BIG)%Z.
Proof. apply SFval_range, Prim2SF_valid. Qed.

(** Only [+infinity] reaches the top of the integer image. *)
Lemma val_BIG_infinity (x : float) :
  is_nan x = false -> val x = BIG -> (x =? infinity) = true.
Proof.
  intros Nx Hv. rewrite eqb_val, val_infinity, Hv by (assumption || reflexivity).
  apply Z.eqb_refl.
Qed.

(** [a - b] is positive exactly when [b < a]: the comparator
    [(a, b) => a - b] orders numbers as [<] does. *)
Lemma sub_positive (a b : float) :
  is_nan a = false -> is_nan b = false ->
  (0 <? a - b) = (val b <? val a)%Z.
Proof.
  rewrite !is_nan_spec. intros Na Nb.
  rewrite FloatAxioms.ltb_spec, sub_spec. change (Prim2SF 0) with (S754_zero false).
  apply SFsub_positive; auto using Prim2SF_valid.
Qed.

Lemma opp_involutive (x : float) : - - x = x.
Proof. apply Prim2SF_inj. rewrite !opp_spec. apply SFopp_involutive. Qed.

Lemma mul_comm (x y : float) : x * y = y * x.
Proof. apply Prim2SF_inj. rewrite !mul_spec. apply SFmul_comm. Qed.

Lemma mul_opp_l (x y : float) : (- x) * y = - (x * y).
Proof. apply Prim2SF_inj. rewrite opp_spec, !mul_spec, opp_spec. apply SFmul_opp_l. Qed.

Lemma mul_opp_r (x y : float) : x * (- y) = - (x * y).
Proof. apply Prim2SF_inj. rewrite opp_spec, !mul_spec, opp_spec. apply SFmul_opp_r. Qed.

Lemma mul_opp_opp (x y : float) : (- x) * (- y) = x * y.
Proof. rewrite mul_opp_l, mul_opp_r. apply opp_involutive. Qed.

Lemma div_opp_l (x y : float) : (- x) / y = - (x / y).
Proof. apply Prim2SF_inj. rewrite opp_spec, !div_spec, opp_spec. apply SFdiv_opp_l. Qed.

Lemma sub_swap (x y : float) :
  y - x = - (x - y) \/ (x - y = 0 /\ y - x = 0).
Proof.
  destruct (SFsub_swap (Prim2SF x) (Prim2SF y)) as [H | [H1 H2]].
  - left. apply Prim2SF_inj. rewrite opp_spec, !sub_spec. exact H.
  - right. split; apply Prim2SF_inj; rewrite sub_spec; assumption.
Qed.

Lemma sub_diag (x : float) : is_finite x = true -> x - x = 0.
Proof.
  rewrite is_finite_spec. intros Hf. apply Prim2SF_inj. rewrite sub_spec.
  apply SFsub_diag. assumption.
Qed.

(** [0 + p * 0 * 0] is [+0] for every finite [p], whatever its sign. *)
Lemma add_mul_zero (p : float) : is_finite p = true -> 0 + p * 0 * 0 = 0.
Proof.
  rewrite is_finite_spec. intros Hf. apply Prim2SF_inj.
  rewrite add_spec, !mul_spec. change (Prim2SF 0) with (S754_zero false).
  destruct (Prim2SF p) as [s | s | | s m e]; try discriminate; destruct s; reflexivity.
Qed.

(** Multiplying a finite number by a constant below [2 ^ -5] stays finite. *)
Lemma mul_small_finite (x k : float) (s : bool) (m : positive) (e : Z) :
  Prim2SF k = S754_finite s m e -> (e <= -54)%Z ->
  is_finite x = true -> is_finite (x * k) = true.
Proof.
  intros Hk He. rewrite !is_finite_spec, mul_spec.
  pose proof (Prim2SF_valid x) as Vx. pose proof (Prim2SF_valid k) as Vk.
  rewrite Hk in *.
  destruct (Prim2SF x) as [sx | sx | | sx mx ex]; try discriminate; intros _.
  - reflexivity.
  - apply SFmul_finite; try assumption.
    apply valid_finite_bounds in Vx. change prec with 53%Z in *. change emax with 1024%Z in *. lia.
Qed.

(** The square of a number of magnitude at most one is finite. *)
Lemma mul_self_finite (c : float) : (abs c <=? 1) = true -> is_finite (c * c) = true.
Proof.
  rewrite FloatAxioms.leb_spec, abs_spec, is_finite_spec, mul_spec.
  change (Prim2SF 1) with (S754_finite false 4503599627370496 (-52)).
  pose proof (Prim2SF_valid c) as Vc.
  destruct (Prim2SF c) as [s | s | | s m e]; try discriminate; intros Hle.
  - reflexivity.
  - apply SFmul_finite; try assumption.
    unfold SFleb in Hle. cbn [SFabs SFcompare] in Hle.
    change prec with 53%Z. change emax with 1024%Z.
    destruct (Z.compare_spec e (-52)); try discriminate; lia.
Qed.

End Binary64Facts.

(** * Properties of the sort *)

Section SortFacts.

Context {A : Type}.
Variable comparefn : A -> A -> float.

(** The comparator is consistent on the elements of interest: it orders
    them as an integer rank does. *)
Variable rank : A -> Z.
Variable P : A -> Prop.
Hypothesis comparefn_rank :
  forall x y, P x -> P y -> (0 <? SortCompare comparefn x y)%float = (rank y <? rank x)%Z.

Lemma sort_insert_perm (x : A) (l : list A) :
  Permutation (sort_insert comparefn x l) (x :: l).
Proof.
  induction l as [|y l IH]; cbn [sort_insert].
  - reflexivity.
  - destruct (0 <? SortCompare comparefn x y)%float.
    + rewrite IH. apply perm_swap.
    + reflexivity.
Qed.

Lemma Array_sort_perm (l : list A) : Permutation (Array_sort comparefn l) l.
Proof.
  induction l as [|x l IH]; cbn [Array_sort fold_right].
  - reflexivity.
  - rewrite sort_insert_perm. constructor. exact IH.
Qed.

Lemma Array_sort_Forall (Q : A -> Prop) (l : list A) :
  Forall Q l -> Forall Q (Array_sort comparefn l).
Proof.
  intros H. eapply Permutation_Forall; [symmetry; apply Array_sort_perm | exact H].
Qed.

Lemma sort_insert_sorted (x : A) (l : list A) :
  P x -> Forall P l -> StronglySorted (rank_le rank) l ->
  StronglySorted (rank_le rank) (sort_insert comparefn x l).
Proof.
  intros Px Pl Hs. induction Hs as [|y l Hs IH Hy]; cbn [sort_insert].
  - repeat constructor.
  - inversion Pl as [|? ? Py Pl']; subst.
    rewrite (comparefn_rank x y Px Py).
    destruct (Z.ltb_spec (rank y) (rank x)) as [Hlt | Hge].
    + constructor; [apply IH; assumption|].
      eapply Permutation_Forall; [symmetry; apply sort_insert_perm|].
      constructor; [unfold rank_le; lia | assumption].
    + constructor; [constructor; assumption|].
      constructor; [exact Hge|].
      eapply Forall_impl; [|exact Hy]. unfold rank_le. intros z Hz. lia.
Qed.

Lemma Array_sort_sorted (l : list A) :
  Forall P l -> StronglySorted (rank_le rank) (Array_sort comparefn l).
Proof.
  induction l as [|x l IH]; intros Hl; cbn [Array_sort fold_right].
  - constructor.
  - inversion Hl; subst. apply sort_insert_sorted; auto.
    apply Array_sort_Forall. assumption.
Qed.

(** Stability: a class of elements of one rank keeps its order. *)
Lemma sort_insert_filter (p : A -> bool) (x : A) (l : list A) :
  (forall y z, P y -> P z -> p y = true -> p z = true -> rank y = rank z) ->
  P x -> Forall P l ->
  filter p (sort_insert comparefn x l) = filter p (x :: l).
Proof.
  intros Hp Px Pl. induction Pl as [|y l Py Pl IH]; cbn [sort_insert].
  - reflexivity.
  - rewrite (comparefn_rank x y Px Py).
    destruct (Z.ltb_spec (rank y) (rank x)) as [Hlt | Hge]; [|reflexivity].
    cbn [filter] in *. rewrite IH.
    destruct (p x) eqn:Ex, (p y) eqn:Ey; try reflexivity.
    pose proof (Hp x y Px Py Ex Ey). lia.
Qed.

Lemma Array_sort_filter (p : A -> bool) (l : list A) :
  (forall y z, P y -> P z -> p y = true -> p z = true -> rank y = rank z) ->
  Forall P l ->
  filter p (Array_sort comparefn l) = filter p l.
Proof.
  intros Hp. induction l as [|x l IH]; intros Hl; cbn [Array_sort fold_right].
  - reflexivity.
  - inversion Hl; subst. fold (Array_sort comparefn l).
    rewrite sort_insert_filter; auto using Array_sort_Forall.
    cbn [filter]. rewrite IH by assumption. reflexivity.
Qed.

(** For a consistent comparator the result of a stable sort is
    determined: every arrangement that is sorted and keeps the order within
    each rank is the one [Array_sort] computes. *)
Lemma stable_sorted_unique (l1 l2 : list A) :
  StronglySorted (rank_le rank) l1 -> StronglySorted (rank_le rank) l2 ->
  (forall k, filter (fun x => rank x =? k)%Z l1 = filter (fun x => rank x =? k)%Z l2) ->
  l1 = l2.
Proof.
  revert l2. induction l1 as [|x l1 IH]; intros l2 H1 H2 Hf.
  - destruct l2 as [|y l2]; [reflexivity|].
    specialize (Hf (rank y)). cbn [filter] in Hf. rewrite Z.eqb_refl in Hf. discriminate.
  - destruct l2 as [|y l2].
    { specialize (Hf (rank x)). cbn [filter] in Hf. rewrite Z.eqb_refl in Hf. discriminate. }
    inversion H1 as [|? ? H1' Hx]; inversion H2 as [|? ? H2' Hy]; subst.
    assert (Hxy : rank x = rank y).
    { assert (Hin : In x (y :: l2)).
      { pose proof (Hf (rank x)) as E. cbn [filter] in E. rewrite Z.eqb_refl in E.
        assert (Hin : In x (filter (fun z => rank z =? rank x)%Z (y :: l2)))
          by (cbn [filter]; rewrite <- E; left; reflexivity).
        apply filter_In in Hin. tauto. }
      assert (Hin' : In y (x :: l1)).
      { pose proof (Hf (rank y)) as E. cbn [filter] in E. rewrite (Z.eqb_refl (rank y)) in E.
        assert (Hin' : In y (filter (fun z => rank z =? rank y)%Z (x :: l1)))
          by (cbn [filter]; rewrite E; left; reflexivity).
        apply filter_In in Hin'. tauto. }
      destruct Hin as [-> | Hin]; [reflexivity|].
      destruct Hin' as [-> | Hin']; [reflexivity|].
      rewrite Forall_forall in Hx, Hy.
      specialize (Hx y Hin'). specialize (Hy x Hin). unfold rank_le in *. lia. }
    assert (x = y).
    { pose proof (Hf (rank x)) as E. cbn [filter] in E.
      rewrite <- Hxy, Z.eqb_refl in E. congruence. }
    subst y. f_equal. apply IH; auto.
    intros k. pose proof (Hf k) as E. cbn [filter] in E.
    destruct (rank x =? k)%Z; congruence.
Qed.

Lemma Array_sort_unique (l out : list A) :
  Forall P l ->
  StronglySorted (rank_le rank) out ->
  (forall k, filter (fun x => rank x =? k)%Z out = filter (fun x => rank x =? k)%Z l) ->
  out = Array_sort comparefn l.
Proof.
  intros Hl Hs Hf. apply stable_sorted_unique.
  - exact Hs.
  - apply Array_sort_sorted. exact Hl.
  - intros k. rewrite Hf. symmetry. apply Array_sort_filter; [|exact Hl].
    intros y z _ _ Hy Hz. apply Z.eqb_eq in Hy, Hz. congruence.
Qed.

End SortFacts.

(** * The ranking pipeline *)

Lemma StronglySorted_weaken {A : Type} (R1 R2 : A -> A -> Prop) (Q : A -> Prop) (l : list A) :
  (forall x y, Q x -> Q y -> R1 x y -> R2 x y) ->
  Forall Q l -> StronglySorted R1 l -> StronglySorted R2 l.
Proof.
  intros Himp HQ Hs. induction Hs as [|x l Hs IH Hx].
  - constructor.
  - inversion HQ as [|? ? Qx Ql]; subst. constructor; [auto|].
    rewrite Forall_forall in *. intros y Hy. apply Himp; auto.
Qed.

Lemma StronglySorted_suffix {A : Type} (R : A -> A -> Prop) (pre l : list A) :
  StronglySorted R (pre ++ l) -> StronglySorted R l.
Proof.
  induction pre as [|x pre IH]; cbn [app]; intros H; [exact H|].
  inversion H; subst. auto.
Qed.

Section Ranker.

Variable Math : MathObject.

Local Open Scope float_scope.

Lemma attachDistance_biz (loc : LocationCoords) (b : Business) :
  biz (attachDistance Math loc b) = b.
Proof.
  unfold attachDistance.
  destruct (hasCoordinates b), (latitude b), (longitude b); reflexivity.
Qed.

Lemma attachDistance_without (loc : LocationCoords) (b : Business) :
  hasCoordinates b = false ->
  attachDistance Math loc b = {| biz := b; distance := None |}.
Proof. unfold attachDistance. intros ->. reflexivity. Qed.

Lemma attachDistance_with (loc : LocationCoords) (b : Business) :
  hasCoordinates b = true ->
  exists la lo,
    latitude b = Some la /\ longitude b = Some lo /\
    attachDistance Math loc b =
      {| biz := b;
         distance := Some (getDistance Math loc
                             {| coords_latitude := la; coords_longitude := lo |}) |}.
Proof.
  unfold attachDistance. intros Hc. rewrite Hc. unfold hasCoordinates, truthy in Hc.
  destruct (latitude b) as [la|]; [|discriminate].
  destruct (longitude b) as [lo|]; [|rewrite andb_false_r in Hc; discriminate].
  exists la, lo. auto.
Qed.

Lemma zeroCoordinate_without (b : Business) :
  zeroCoordinate b -> hasCoordinates b = false.
Proof.
  unfold hasCoordinates, truthy, truthy_number.
  intros [(x & -> & Hx) | (y & -> & Hy)].
  - rewrite Hx. reflexivity.
  - rewrite Hy. apply andb_false_r.
Qed.

Lemma businessesWithDistance_staged (bs : list Business) (R : float)
    (location : option LocationCoords) :
  businessesWithDistance Math bs R location =
  match location with
  | None => filter (withinRadius R) (List.map (ranked Math location) bs)
  | Some _ => Array_sort byDistance (filter (withinRadius R) (List.map (ranked Math location) bs))
  end.
Proof.
  destruct location as [loc|]; [reflexivity|]. cbn [businessesWithDistance ranked].
  induction bs as [|b bs IH]; [reflexivity|]. cbn [List.map filter withinRadius distance].
  rewrite <- IH. reflexivity.
Qed.

Lemma bounded_comparable (r : Ranked) : boundedDistance r -> comparable r.
Proof.
  unfold boundedDistance, comparable. destruct (distance r); cbn [orInfinity]; [tauto | reflexivity].
Qed.

Lemma byDistance_rank (x y : Ranked) :
  comparable x -> comparable y ->
  (0 <? SortCompare byDistance x y) = (rankOf y <? rankOf x)%Z.
Proof.
  unfold comparable, rankOf, SortCompare, byDistance. intros Hx Hy.
  rewrite <- Binary64Facts.sub_positive by assumption.
  set (v := orInfinity (distance x) - orInfinity (distance y)).
  destruct (is_nan v) eqn:Hn; [|reflexivity].
  destruct (0 <? v) eqn:Hlt; [|reflexivity].
  apply Binary64Facts.ltb_not_nan in Hlt. destruct Hlt as [_ Hlt]. congruence.
Qed.

Lemma withinRadius_comparable (R : float) (r : Ranked) :
  withinRadius R r = true -> comparable r.
Proof.
  unfold withinRadius, comparable. destruct (distance r) as [d|]; cbn [orInfinity].
  - intros H. apply Binary64Facts.leb_not_nan in H. tauto.
  - reflexivity.
Qed.

Lemma withinRadius_bounded (R : float) (r : Ranked) :
  (R =? infinity) = false -> withinRadius R r = true -> boundedDistance r.
Proof.
  unfold withinRadius, boundedDistance. intros HR. destruct (distance r) as [d|]; [|trivial].
  intros H. destruct (Binary64Facts.leb_not_nan _ _ H) as [Nd NR]. split; [assumption|].
  rewrite Binary64Facts.leb_val in H by assumption. apply Z.leb_le in H.
  pose proof (Binary64Facts.val_le_BIG R) as HB.
  destruct (Z.eq_dec (Binary64.val R) Binary64.BIG) as [E|E]; [|lia].
  apply Binary64Facts.val_BIG_infinity in E; [congruence | assumption].
Qed.

Lemma rank_distance_le (x y : Ranked) :
  boundedDistance x -> boundedDistance y -> (rankOf x <= rankOf y)%Z ->
  distance_le (distance x) (distance y).
Proof.
  unfold boundedDistance, rankOf, distance_le.
  destruct (distance x) as [a|], (distance y) as [b|]; cbn [orInfinity]; try tauto.
  - intros [Na _] [Nb _] H. rewrite Binary64Facts.leb_val by assumption. apply Z.leb_le. exact H.
  - intros _ [_ Hb]. rewrite Binary64Facts.val_infinity. lia.
Qed.

Lemma sameDistance_rank (d : option float) (x y : Ranked) :
  sameDistance (distance x) d = true -> sameDistance (distance y) d = true ->
  rankOf x = rankOf y.
Proof.
  unfold sameDistance, rankOf.
  destruct (distance x) as [a|], (distance y) as [b|], d as [c|]; try discriminate;
    cbn [orInfinity]; intros Ha Hb; [|reflexivity].
  destruct (Binary64Facts.eqb_not_nan _ _ Ha) as [Na Nc].
  destruct (Binary64Facts.eqb_not_nan _ _ Hb) as [Nb _].
  rewrite Binary64Facts.eqb_val in Ha, Hb by assumption.
  apply Z.eqb_eq in Ha, Hb. congruence.
Qed.

Lemma kept_comparable (bs : list Business) (R : float) (location : option LocationCoords) :
  Forall comparable (filter (withinRadius R) (List.map (ranked Math location) bs)).
Proof.
  apply Forall_forall. intros r Hr. apply filter_In in Hr.
  eapply withinRadius_comparable. apply Hr.
Qed.

Lemma kept_bounded (bs : list Business) (R : float) (location : option LocationCoords) :
  (R =? infinity) = false ->
  Forall boundedDistance (filter (withinRadius R) (List.map (ranked Math location) bs)).
Proof.
  intros HR. apply Forall_forall. intros r Hr. apply filter_In in Hr.
  eapply withinRadius_bounded; [exact HR | apply Hr].
Qed.

Lemma In_businessesWithDistance (bs : list Business) (R : float)
    (location : option LocationCoords) (r : Ranked) :
  In r (businessesWithDistance Math bs R location) <->
  (exists b, In b bs /\ r = ranked Math location b) /\ withinRadius R r = true.
Proof.
  rewrite businessesWithDistance_staged.
  assert (H : In r (filter (withinRadius R) (List.map (ranked Math location) bs)) <->
              (exists b, In b bs /\ r = ranked Math location b) /\ withinRadius R r = true).
  { rewrite filter_In, in_map_iff. split.
    - intros [(b & <- & Hb) Hw]. split; eauto.
    - intros [(b & Hb & ->) Hw]. split; eauto. }
  destruct location as [loc|]; [|exact H].
  rewrite <- H. split; apply Permutation_in;
    [apply Array_sort_perm | symmetry; apply Array_sort_perm].
Qed.

Lemma sorted_by_distance (bs : list Business) (R : float) (location : option LocationCoords) :
  (R =? infinity) = false ->
  StronglySorted (fun a b => distance_le (distance a) (distance b))
    (businessesWithDistance Math bs R location).
Proof.
  intros HR. rewrite businessesWithDistance_staged.
  pose proof (kept_bounded bs R location HR) as Hb.
  destruct location as [loc|].
  - apply StronglySorted_weaken with (R1 := rank_le rankOf) (Q := boundedDistance).
    + intros x y. apply rank_distance_le.
    + apply Array_sort_Forall. exact Hb.
    + apply Array_sort_sorted with (P := comparable).
      * apply byDistance_rank.
      * eapply Forall_impl; [apply bounded_comparable | exact Hb].
  - cbn [ranked]. clear Hb. induction bs as [|b bs IH]; cbn; constructor; [exact IH|].
    apply Forall_forall. intros r Hr. apply filter_In in Hr. destruct Hr as [Hr _].
    apply in_map_iff in Hr. destruct Hr as (b' & <- & _). exact I.
Qed.

Lemma stable_by_distance (bs : list Business) (R : float) (location : option LocationCoords)
    (d : option float) :
  filter (fun r => sameDistance (distance r) d) (businessesWithDistance Math bs R location)
  = filter (fun r => sameDistance (distance r) d)
      (filter (withinRadius R) (List.map (ranked Math location) bs)).
Proof.
  rewrite businessesWithDistance_staged. destruct location as [loc|]; [|reflexivity].
  apply Array_sort_filter with (rank := rankOf) (P := comparable).
  - apply byDistance_rank.
  - intros y z _ _. apply sameDistance_rank.
  - apply kept_comparable.
Qed.

End Ranker.

(** * The distance *)

Section DistanceFacts.

Variable Math : MathObject.
Hypothesis laws : MathLaws Math.

Local Open Scope float_scope.

Lemma RAD_spec : Prim2SF RAD = S754_finite false 5030569068109113 (-58).
Proof. reflexivity. Qed.

(** Exchanging the two points negates the half-angle, or leaves it [+0]. *)
Lemma half_angle_swap (x y : float) :
  (y - x) * RAD / 2 = - ((x - y) * RAD / 2)
  \/ (y - x) * RAD / 2 = (x - y) * RAD / 2.
Proof.
  destruct (Binary64Facts.sub_swap x y) as [H | [H1 H2]].
  - left. rewrite H, Binary64Facts.mul_opp_l, Binary64Facts.div_opp_l. reflexivity.
  - right. rewrite H1, H2. reflexivity.
Qed.

Lemma sin_sq_swap (x y : float) :
  Math_sin Math ((y - x) * RAD / 2) * Math_sin Math ((y - x) * RAD / 2)
  = Math_sin Math ((x - y) * RAD / 2) * Math_sin Math ((x - y) * RAD / 2).
Proof.
  destruct (half_angle_swap x y) as [H | H]; rewrite H; [|reflexivity].
  rewrite (sin_opp _ laws). apply Binary64Facts.mul_opp_opp.
Qed.

Lemma mul_sin_sq_swap (p x y : float) :
  p * Math_sin Math ((y - x) * RAD / 2) * Math_sin Math ((y - x) * RAD / 2)
  = p * Math_sin Math ((x - y) * RAD / 2) * Math_sin Math ((x - y) * RAD / 2).
Proof.
  destruct (half_angle_swap x y) as [H | H]; rewrite H; [|reflexivity].
  rewrite (sin_opp _ laws), (Binary64Facts.mul_opp_r p). apply Binary64Facts.mul_opp_opp.
Qed.

Lemma getDistance_swap (A B : LocationCoords) :
  getDistance Math A B = getDistance Math B A.
Proof.
  unfold getDistance. cbv zeta. fold RAD.
  rewrite (sin_sq_swap (coords_latitude A) (coords_latitude B)).
  rewrite (mul_sin_sq_swap _ (coords_longitude A) (coords_longitude B)).
  rewrite (Binary64Facts.mul_comm (Math_cos Math (coords_latitude A * RAD))).
  reflexivity.
Qed.

Lemma cos_sq_finite (x : float) :
  is_finite x = true ->
  is_finite (Math_cos Math (x * RAD) * Math_cos Math (x * RAD)) = true.
Proof.
  intros Hx. apply Binary64Facts.mul_self_finite. apply (cos_range _ laws).
  apply Binary64Facts.mul_small_finite with (1 := RAD_spec); [lia | exact Hx].
Qed.

Lemma getDistance_self (A : LocationCoords) :
  is_finite (coords_latitude A) = true -> is_finite (coords_longitude A) = true ->
  getDistance Math A A = 0.
Proof.
  intros Hlat Hlon. unfold getDistance. cbv zeta. fold RAD.
  rewrite !Binary64Facts.sub_diag by assumption.
  change (0 * RAD / 2) with 0. rewrite (sin_zero _ laws).
  change (0 * 0) with 0.
  rewrite Binary64Facts.add_mul_zero by (apply cos_sq_finite; assumption).
  change (sqrt 0) with 0. change (sqrt (1 - 0)) with 1.
  rewrite (atan2_zero_one _ laws). reflexivity.
Qed.

End DistanceFacts.

(** * De-duplication *)

Lemma strict_equals_eq (s t : jsstring) : strict_equals s t = true <-> s = t.
Proof.
  revert t. induction s as [|c s IH]; intros [|d t]; cbn [strict_equals];
    try (split; [discriminate | discriminate]).
  - tauto.
  - rewrite andb_true_iff, N.eqb_eq, IH. split.
    + intros [-> ->]. reflexivity.
    + intros [= -> ->]. auto.
Qed.

Lemma strict_equals_refl (s : jsstring) : strict_equals s s = true.
Proof. apply strict_equals_eq. reflexivity. Qed.

Lemma strict_equals_neq (s t : jsstring) : strict_equals s t = false <-> s <> t.
Proof.
  rewrite <- strict_equals_eq. destruct (strict_equals s t); split; congruence.
Qed.

Lemma strict_equals_sym (s t : jsstring) : strict_equals s t = strict_equals t s.
Proof.
  destruct (strict_equals t s) eqn:E.
  - apply strict_equals_eq. symmetry. apply strict_equals_eq. exact E.
  - apply strict_equals_neq. intros ->. apply strict_equals_neq in E. congruence.
Qed.

Lemma hasId_In (k : jsstring) (ids : list jsstring) : hasId k ids = true <-> In k ids.
Proof.
  unfold hasId. rewrite existsb_exists. split.
  - intros (k' & Hin & E). apply strict_equals_eq in E. subst. exact Hin.
  - intros Hin. exists k. split; [exact Hin | apply strict_equals_refl].
Qed.

Lemma firstAppearance_In (k : jsstring) (ids : list jsstring) :
  In k (firstAppearance ids) <-> In k ids.
Proof.
  induction ids as [|x ids IH]; cbn [firstAppearance In]; [tauto|].
  rewrite filter_In, IH, negb_true_iff, strict_equals_neq.
  destruct (list_eq_dec N.eq_dec x k) as [-> | Hne]; [tauto|]. split.
  - tauto.
  - intros [E | Hin]; [tauto|]. right. split; [exact Hin | congruence].
Qed.

Lemma firstAppearance_NoDup (ids : list jsstring) : NoDup (firstAppearance ids).
Proof.
  induction ids as [|x ids IH]; cbn [firstAppearance]; constructor.
  - rewrite filter_In, negb_true_iff, strict_equals_neq. tauto.
  - apply NoDup_filter. exact IH.
Qed.

Lemma firstAppearance_snoc (ids : list jsstring) (k : jsstring) :
  firstAppearance (ids ++ [k]) =
  if hasId k ids then firstAppearance ids else firstAppearance ids ++ [k].
Proof.
  induction ids as [|x ids IH]; [reflexivity|].
  cbn [app firstAppearance hasId existsb]. fold (hasId k ids). rewrite IH.
  destruct (strict_equals x k) eqn:E; cbn [orb].
  - apply strict_equals_eq in E. subst x.
    destruct (hasId k ids); [reflexivity|].
    rewrite filter_app. cbn [filter]. rewrite strict_equals_refl. cbn [negb].
    rewrite app_nil_r. reflexivity.
  - destruct (hasId k ids); [reflexivity|].
    rewrite filter_app. cbn [filter]. rewrite strict_equals_sym, E. reflexivity.
Qed.

Section MapFacts.

Context {V : Type}.

Lemma Map_set_keys (k : jsstring) (v : V) (m : JsMap) :
  Map_keys (Map_set k v m) = if hasId k (Map_keys m) then Map_keys m else Map_keys m ++ [k].
Proof.
  induction m as [|[k' v'] m IH]; [reflexivity|].
  cbn [Map_set Map_keys List.map fst hasId existsb].
  fold (Map_keys m). fold (hasId k (Map_keys m)).
  destruct (strict_equals k' k); cbn [orb List.map fst]; [reflexivity|].
  fold (Map_keys (Map_set k v m)). rewrite IH.
  destruct (hasId k (Map_keys m)); reflexivity.
Qed.

Lemma Map_entry_set_same (k : jsstring) (v : V) (m : JsMap) :
  Map_entry k (Map_set k v m) = Some (k, v).
Proof.
  induction m as [|[k' v'] m IH]; cbn [Map_set Map_entry find fst].
  - rewrite strict_equals_refl. reflexivity.
  - destruct (strict_equals k' k) eqn:E; cbn [find fst]; rewrite E.
    + apply strict_equals_eq in E. subst. reflexivity.
    + exact IH.
Qed.

Lemma Map_entry_set_other (k0 k : jsstring) (v : V) (m : JsMap) :
  k0 <> k -> Map_entry k0 (Map_set k v m) = Map_entry k0 m.
Proof.
  intros Hne. induction m as [|[k' v'] m IH]; cbn [Map_set Map_entry find fst].
  - apply strict_equals_neq in Hne. rewrite strict_equals_sym, Hne. reflexivity.
  - destruct (strict_equals k' k) eqn:E; cbn [find fst].
    + apply strict_equals_eq in E. subst k'.
      apply strict_equals_neq in Hne. rewrite strict_equals_sym, Hne. reflexivity.
    + destruct (strict_equals k' k0); [reflexivity | exact IH].
Qed.

Lemma Map_new_snoc (es : list (jsstring * V)) (k : jsstring) (v : V) :
  Map_new (es ++ [(k, v)]) = Map_set k v (Map_new es).
Proof. unfold Map_new. rewrite fold_left_app. reflexivity. Qed.

Lemma Map_new_keys (es : list (jsstring * V)) :
  Map_keys (Map_new es) = firstAppearance (List.map fst es).
Proof.
  induction es as [|[k v] es IH] using rev_ind; [reflexivity|].
  rewrite Map_new_snoc, Map_set_keys, map_app. cbn [List.map fst].
  rewrite firstAppearance_snoc, IH.
  assert (E : hasId k (firstAppearance (List.map fst es)) = hasId k (List.map fst es)).
  { apply eq_true_iff_eq. rewrite !hasId_In. apply firstAppearance_In. }
  rewrite E. reflexivity.
Qed.

(** The map holds, for each key, the last entry set for it. *)
Lemma Map_new_entry (es : list (jsstring * V)) (k : jsstring) :
  Map_entry k (Map_new es) = find (fun kv => strict_equals (fst kv) k) (rev es).
Proof.
  induction es as [|[k1 v1] es IH] using rev_ind; [reflexivity|].
  rewrite Map_new_snoc, rev_app_distr. cbn [rev app find fst].
  destruct (strict_equals k1 k) eqn:E.
  - apply strict_equals_eq in E. subst. apply Map_entry_set_same.
  - rewrite Map_entry_set_other; [exact IH|].
    apply strict_equals_neq in E. congruence.
Qed.

Lemma Map_entry_In (m : @JsMap V) (k : jsstring) (v : V) :
  NoDup (Map_keys m) -> In (k, v) m -> Map_entry k m = Some (k, v).
Proof.
  induction m as [|[k' v'] m IH]; cbn [Map_keys List.map fst In Map_entry find]; [tauto|].
  intros Hnd [E | Hin]; inversion Hnd as [|? ? Hnotin Hnd']; subst.
  - injection E as -> ->. rewrite strict_equals_refl. reflexivity.
  - destruct (strict_equals k' k) eqn:E.
    + apply strict_equals_eq in E. subst k'. exfalso. apply Hnotin.
      change k with (fst (k, v)). apply in_map. exact Hin.
    + apply IH; assumption.
Qed.

End MapFacts.

Lemma find_map {A B : Type} (f : A -> B) (p : B -> bool) (l : list A) :
  find p (List.map f l) = option_map f (find (fun a => p (f a)) l).
Proof.
  induction l as [|a l IH]; cbn [List.map find]; [reflexivity|].
  destruct (p (f a)); [reflexivity | exact IH].
Qed.

Lemma uniqueBusinesses_ids (bs : list Business) :
  List.map placeId (uniqueBusinesses bs) = firstAppearance (List.map placeId bs).
Proof.
  unfold uniqueBusinesses, Map_values.
  set (es := List.map (fun item => (placeId item, item)) bs).
  assert (Hinv : Forall (fun kv => fst kv = placeId (snd kv)) (Map_new es)).
  { subst es. induction bs as [|b bs IH] using rev_ind; [constructor|].
    rewrite map_app. cbn [List.map]. rewrite Map_new_snoc.
    induction IH as [|[k' v'] m Hk Hm IHm]; cbn [Map_set].
    - repeat constructor.
    - destruct (strict_equals k' (placeId b)) eqn:E.
      + apply strict_equals_eq in E. constructor; [exact E | exact Hm].
      + constructor; [exact Hk | exact IHm]. }
  assert (E : List.map placeId (List.map snd (Map_new es)) = Map_keys (Map_new es)).
  { unfold Map_keys. rewrite map_map. apply map_ext_in. intros kv Hin.
    rewrite Forall_forall in Hinv. symmetry. apply Hinv. exact Hin. }
  rewrite E, Map_new_keys. subst es. rewrite map_map. reflexivity.
Qed.

Lemma uniqueBusinesses_last (bs : list Business) (b : Business) :
  In b (uniqueBusinesses bs) -> lastWith (placeId b) bs = Some b.
Proof.
  unfold uniqueBusinesses, Map_values, lastWith, firstWith.
  set (f := fun item : Business => (placeId item, item)).
  intros Hin. apply in_map_iff in Hin. destruct Hin as ([k v] & Hv & Hin).
  cbn [snd] in Hv. subst v.
  assert (Hnd : NoDup (Map_keys (Map_new (List.map f bs)))).
  { rewrite Map_new_keys. apply firstAppearance_NoDup. }
  pose proof (Map_entry_In _ _ _ Hnd Hin) as He.
  rewrite Map_new_entry, <- map_rev, find_map in He. cbn [f fst] in He.
  destruct (find (fun a => strict_equals (placeId a) k) (rev bs)) as [b'|] eqn:Hf;
    [|discriminate].
  cbn [option_map] in He. injection He as Hk Hb. subst b' k. exact Hf.
Qed.

(** * The favorites store *)

Lemma isFavorite_true (favs : list Business) (b : Business) :
  isFavorite favs b = true <-> exists f, In f favs /\ placeId f = placeId b.
Proof.
  unfold isFavorite. rewrite existsb_exists.
  split; intros (f & Hin & E); exists f; split; auto; apply strict_equals_eq; exact E.
Qed.

Lemma isFavorite_false (favs : list Business) (b : Business) :
  isFavorite favs b = false <-> forall f, In f favs -> placeId f <> placeId b.
Proof.
  split.
  - intros Hf f Hin E.
    assert (isFavorite favs b = true) by (apply isFavorite_true; eauto). congruence.
  - intros H. destruct (isFavorite favs b) eqn:E; [|reflexivity].
    apply isFavorite_true in E. destruct E as (f & Hin & E). exfalso. eapply H; eauto.
Qed.

Lemma filter_otherId_absent (favs : list Business) (b : Business) :
  isFavorite favs b = false -> filter (otherId b) favs = favs.
Proof.
  rewrite isFavorite_false. intros H. induction favs as [|f favs IH]; [reflexivity|].
  cbn [filter]. unfold otherId at 1.
  assert (E : strict_equals (placeId f) (placeId b) = false).
  { apply strict_equals_neq. apply H. left. reflexivity. }
  rewrite E. cbn [negb]. f_equal. apply IH. intros f' Hin. apply H. right. exact Hin.
Qed.

Lemma isFavorite_filter (favs : list Business) (b : Business) :
  isFavorite (filter (otherId b) favs) b = false.
Proof.
  apply isFavorite_false. intros f Hin E. apply filter_In in Hin. destruct Hin as [_ Hin].
  unfold otherId in Hin. apply negb_true_iff, strict_equals_neq in Hin. contradiction.
Qed.

Lemma isFavorite_snoc (favs : list Business) (b : Business) :
  isFavorite (favs ++ [b]) b = true.
Proof.
  apply isFavorite_true. exists b. split; [|reflexivity]. apply in_or_app. right. left. reflexivity.
Qed.

Lemma updatedFavorites_present (favs : list Business) (b : Business) :
  isFavorite favs b = true -> updatedFavorites favs b = filter (otherId b) favs.
Proof. unfold updatedFavorites. intros ->. reflexivity. Qed.

Lemma updatedFavorites_absent (favs : list Business) (b : Business) :
  isFavorite favs b = false -> updatedFavorites favs b = favs ++ [b].
Proof. unfold updatedFavorites. intros ->. reflexivity. Qed.

(** Two toggles of an absent business: inserted, then removed. *)
Lemma toggle_twice_absent (favs : list Business) (b : Business) :
  isFavorite favs b = false ->
  updatedFavorites (updatedFavorites favs b) b = favs.
Proof.
  intros H. rewrite (updatedFavorites_absent _ _ H).
  rewrite updatedFavorites_present by apply isFavorite_snoc.
  rewrite filter_app, (filter_otherId_absent _ _ H). cbn [filter]. unfold otherId.
  rewrite strict_equals_refl. cbn [negb]. apply app_nil_r.
Qed.

(** Two toggles of a present business: every entry with its id is
    removed, then the business itself is appended. *)
Lemma toggle_twice_present (favs : list Business) (b : Business) :
  isFavorite favs b = true ->
  updatedFavorites (updatedFavorites favs b) b = filter (otherId b) favs ++ [b].
Proof.
  intros H. rewrite (updatedFavorites_present _ _ H).
  apply updatedFavorites_absent, isFavorite_filter.
Qed.

Lemma toggle_twice_ids (favs : list Business) (b : Business) (k : jsstring) :
  In k (List.map placeId (updatedFavorites (updatedFavorites favs b) b))
  <-> In k (List.map placeId favs).
Proof.
  destruct (isFavorite favs b) eqn:H.
  - rewrite (toggle_twice_present _ _ H), map_app, in_app_iff. cbn [List.map In]. split.
    + intros [Hin | [<- | []]].
      * apply in_map_iff in Hin. destruct Hin as (f & <- & Hin).
        apply filter_In in Hin. apply in_map. tauto.
      * apply isFavorite_true in H. destruct H as (f & Hin & E).
        rewrite <- E. apply in_map. exact Hin.
    + intros Hin. apply in_map_iff in Hin. destruct Hin as (f & <- & Hin).
      destruct (strict_equals (placeId f) (placeId b)) eqn:E.
      * apply strict_equals_eq in E. right. left. symmetry. exact E.
      * left. apply in_map. apply filter_In. split; [exact Hin|].
        unfold otherId. rewrite E. reflexivity.
  - rewrite (toggle_twice_absent _ _ H). reflexivity.
Qed.

Lemma toggle_twice_entries (favs : list Business) (b : Business) :
  (forall f, In f favs -> placeId f = placeId b -> f = b) ->
  sameEntries (updatedFavorites (updatedFavorites favs b) b) favs.
Proof.
  intros Hb x. destruct (isFavorite favs b) eqn:H.
  - rewrite (toggle_twice_present _ _ H), in_app_iff, filter_In. cbn [In]. split.
    + intros [[Hin _] | [<- | []]]; [exact Hin|].
      apply isFavorite_true in H. destruct H as (f & Hin & E).
      rewrite <- (Hb f Hin E). exact Hin.
    + intros Hin. destruct (strict_equals (placeId x) (placeId b)) eqn:E.
      * apply strict_equals_eq in E. right. left. symmetry. apply Hb; assumption.
      * left. split; [exact Hin|]. unfold otherId. rewrite E. reflexivity.
  - rewrite (toggle_twice_absent _ _ H). reflexivity.
Qed.

Lemma NoDup_map_filter {A B : Type} (f : A -> B) (p : A -> bool) (l : list A) :
  NoDup (List.map f l) -> NoDup (List.map f (filter p l)).
Proof.
  induction l as [|a l IH]; cbn [List.map filter]; [auto|].
  intros H. inversion H as [|? ? Hnotin Hnd]; subst.
  destruct (p a); cbn [List.map]; [|auto].
  constructor; [|auto]. intros Hin. apply Hnotin.
  apply in_map_iff in Hin. destruct Hin as (a' & E & Hin). apply filter_In in Hin.
  apply in_map_iff. exists a'. tauto.
Qed.

Lemma updatedFavorites_unique (favs : list Business) (b : Business) :
  uniqueIds favs -> uniqueIds (updatedFavorites favs b).
Proof.
  unfold uniqueIds, updatedFavorites. intros Hnd. destruct (isFavorite favs b) eqn:H.
  - apply NoDup_map_filter. exact Hnd.
  - rewrite map_app. cbn [List.map]. apply NoDup_app.
    + exact Hnd.
    + repeat constructor. intros [].
    + intros k Hk [<- | []]. apply in_map_iff in Hk. destruct Hk as (f & E & Hin).
      rewrite isFavorite_false in H. eapply H; eauto.
Qed.

Lemma JSON_business_ids (l : list Business) :
  List.map placeId (List.map JSON_business l) = List.map placeId l.
Proof. rewrite map_map. reflexivity. Qed.

Lemma runOp_invariant (op : FavoritesOp) (st : Favorites) :
  storeInvariant st -> storeInvariant (runOp op st).
Proof.
  unfold storeInvariant. intros [Hf Hs]. destruct op as [|b|b]; cbn [runOp].
  - unfold loadFavorites. destruct (favoriteBusinesses st) as [| |l] eqn:E; cbn; rewrite ?E; auto.
  - cbn [toggleFavorite favorites favoriteBusinesses JSON_stringify].
    split; [apply updatedFavorites_unique; exact Hf|].
    unfold uniqueIds. rewrite JSON_business_ids. apply updatedFavorites_unique. exact Hf.
  - auto.
Qed.

(** * The search handler *)

Lemma truthy_string_false (s : jsstring) : truthy_string s = false <-> s = [].
Proof. destruct s; cbn; split; congruence. Qed.

Lemma fold_left_inert (events : list Event) (st : SearchState) :
  Forall inert events -> fold_left setState events st = st.
Proof.
  intros H. revert st. induction H as [|e events He _ IH]; intros st; cbn [fold_left].
  - reflexivity.
  - rewrite He. apply IH.
Qed.

Lemma findNearbyBusinesses_inert (env : Environment) (category : jsstring)
    (loc : option LocationCoords) (manual : jsstring) :
  Forall inert (fst (findNearbyBusinesses env category loc manual)).
Proof.
  unfold findNearbyBusinesses, tryFindNearbyBusinesses.
  destruct (API_KEY env) as [[|c key]|]; cbn [fst].
  - repeat constructor.
  - destruct (buildRequest category loc manual) as [request | t]; cbn [fst].
    + destruct (_ <- generateContent env request ;; _); cbn [fst app];
        repeat constructor.
    + repeat constructor.
  - repeat constructor.
Qed.

(** A failed lookup always throws an [Error] whose message is one of two kinds. *)
Lemma findNearbyBusinesses_throws (env : Environment) (category : jsstring)
    (loc : option LocationCoords) (manual : jsstring) (t : thrown) :
  snd (findNearbyBusinesses env category loc manual) = Throw t ->
  exists t0, t = rethrow t0.
Proof.
  unfold findNearbyBusinesses.
  destruct (tryFindNearbyBusinesses env category loc manual) as [events [l | t0]]; cbn [snd].
  - discriminate.
  - intros [= <-]. eauto.
Qed.

Lemma handleSearch_valid (env : Environment) (st : SearchState) :
  validInputs st ->
  handleSearch env st =
    [SetIsLoading true; SetError None; SetBusinesses [];
     CallFindNearbyBusinesses (searchTerm st) (location st) (manualLocation st)]
    ++ fst (findNearbyBusinesses env (searchTerm st) (location st) (manualLocation st))
    ++ afterLookup (searchTerm st)
         (snd (findNearbyBusinesses env (searchTerm st) (location st) (manualLocation st)))
    ++ [SetIsLoading false].
Proof.
  intros [Hc Hl]. unfold handleSearch.
  destruct (truthy_string (trim (searchTerm st))) eqn:E1;
    [|apply truthy_string_false in E1; contradiction].
  cbn [negb].
  assert (E2 : match location st with None => true | Some _ => false end
               && negb (truthy_string (trim (manualLocation st))) = false).
  { destruct (location st); [reflexivity|]. cbn [andb].
    destruct (truthy_string (trim (manualLocation st))) eqn:E; [reflexivity|].
    apply truthy_string_false in E. destruct Hl as [Hl | Hl]; contradiction. }
  rewrite E2. destruct (findNearbyBusinesses env _ _ _) as [events r]. reflexivity.
Qed.

Lemma afterSearch_valid (env : Environment) (st : SearchState) :
  validInputs st ->
  afterSearch env st =
  fold_left setState
    (afterLookup (searchTerm st)
       (snd (findNearbyBusinesses env (searchTerm st) (location st) (manualLocation st)))
     ++ [SetIsLoading false])
    {| searchTerm := searchTerm st; manualLocation := manualLocation st;
       location := location st; businesses := [];
       isLoading := true; error := None |}.
Proof.
  intros Hv. unfold afterSearch. rewrite (handleSearch_valid env st Hv).
  cbn [app fold_left setState searchTerm manualLocation location businesses isLoading error].
  rewrite fold_left_app.
  rewrite (fold_left_inert (fst (findNearbyBusinesses env _ _ _)))
    by apply findNearbyBusinesses_inert.
  reflexivity.
Qed.

Lemma noResultsMessage_not_failure (term : jsstring) (t : thrown) :
  rethrow t <> JsError (noResultsMessage term).
Proof.
  destruct t as [message|]; unfold rethrow, noResultsMessage; cbn; discriminate.
Qed.

(** * Main results *)

(** The sample [Math] meets the laws. *)
Lemma smallAngleMath_laws : MathLaws smallAngleMath.
Proof. constructor; intros; reflexivity. Qed.

(** ** C1: de-duplication by [placeId] *)

(** C1, as stated, fails: of two businesses sharing the id [abc], the one
    kept is the second, with its title. *)
Lemma uniqueBusinesses_keeps_second : ~ keepsFirstOccurrence [firstAbc; secondAbc].
Proof.
  intros H. specialize (H secondAbc (or_introl eq_refl)).
  vm_compute in H. discriminate H.
Qed.

(** C1 (amended): [findNearbyBusinesses] de-duplicates by [placeId]: the
    result has exactly one entry per id of the input, in the order of each
    id's first appearance, and the entry kept for an id is the LAST business
    of the input with that id. *)
Theorem uniqueBusinesses_first_position_last_data (bs : list Business) :
  List.map placeId (uniqueBusinesses bs) = firstAppearance (List.map placeId bs)
  /\ NoDup (List.map placeId (uniqueBusinesses bs))
  /\ (forall k, In k (List.map placeId (uniqueBusinesses bs)) <-> In k (List.map placeId bs))
  /\ (forall b, In b (uniqueBusinesses bs) -> lastWith (placeId b) bs = Some b).
Proof.
  rewrite uniqueBusinesses_ids. split; [reflexivity|]. split; [apply firstAppearance_NoDup|].
  split; [intros k; apply firstAppearance_In|]. apply uniqueBusinesses_last.
Qed.

(** On the sample: the second record is the last with the id [abc]. *)
Lemma uniqueBusinesses_witness :
  lastWith (js "abc") [firstAbc; secondAbc] = Some secondAbc.
Proof.
  apply (proj2 (proj2 (proj2 (uniqueBusinesses_first_position_last_data
                                [firstAbc; secondAbc]))) secondAbc).
  vm_compute. left. reflexivity.
Defined.

(** ** C2: the radius filter *)

(** What the filter guarantees in terms of the test the code applies,
    [biz.latitude && biz.longitude]: with a current location [L] and a
    radius [R], every entry the ranker retains either fails that test (its
    distance is undefined) or carries the distance from [L] computed by
    [getDistance], which is at most [R]; and a business that fails the test
    always passes the filter. *)
Lemma ranker_retains_within_radius (Math : MathObject) (bs : list Business)
    (R : float) (L : LocationCoords) :
  (forall r, In r (businessesWithDistance Math bs R (Some L)) ->
     In (biz r) bs /\
     ((hasCoordinates (biz r) = false /\ distance r = None)
      \/ exists la lo,
           latitude (biz r) = Some la /\ longitude (biz r) = Some lo /\
           distance r = Some (getDistance Math L
                                {| coords_latitude := la; coords_longitude := lo |}) /\
           (getDistance Math L {| coords_latitude := la; coords_longitude := lo |}
            <=? R)%float = true))
  /\ (forall b, In b bs -> hasCoordinates b = false ->
        In {| biz := b; distance := None |} (businessesWithDistance Math bs R (Some L))).
Proof.
  split.
  - intros r Hr. apply In_businessesWithDistance in Hr.
    destruct Hr as [(b & Hb & ->) Hw]. cbn [ranked] in *.
    rewrite attachDistance_biz. split; [exact Hb|].
    destruct (hasCoordinates b) eqn:Hc.
    + right. destruct (attachDistance_with Math L b Hc) as (la & lo & Hla & Hlo & E).
      exists la, lo. rewrite E in *. cbn [distance withinRadius] in *. auto.
    + left. rewrite (attachDistance_without Math L b Hc). auto.
  - intros b Hb Hc. apply In_businessesWithDistance. split; [|reflexivity].
    exists b. split; [exact Hb|]. cbn [ranked]. symmetry. apply attachDistance_without. exact Hc.
Qed.

(** On the sample: the near cafe is kept with its distance, the cafe on the
    equator is kept without one. *)
Lemma ranker_retains_witness :
  (let r := attachDistance smallAngleMath newYork nearCafe in
   exists la lo,
     latitude (biz r) = Some la /\ longitude (biz r) = Some lo /\
     (getDistance smallAngleMath newYork
        {| coords_latitude := la; coords_longitude := lo |} <=? 10)%float = true)
  /\ In {| biz := equatorCafe; distance := None |}
       (businessesWithDistance smallAngleMath sampleBusinesses 10 (Some newYork)).
Proof.
  pose proof (ranker_retains_within_radius smallAngleMath sampleBusinesses 10 newYork)
    as [Hkept Hpass].
  split.
  - intros r. destruct (Hkept r) as [_ [[Hc _] | (la & lo & Hla & Hlo & _ & Hle)]].
    + vm_compute. auto.
    + vm_compute in Hc. discriminate Hc.
    + exists la, lo. auto.
  - apply Hpass; [vm_compute; auto | reflexivity].
Defined.

(** C2: the code at the failing input. The cafe on the equator has both
    coordinates, latitude 0 and longitude -74, and the haversine distance
    from the user at (40, -74) is 4447.8 km, not within 10 km; yet with a
    radius of 10 km the ranker keeps it, without a distance, whatever the
    [Math]: the test [biz.latitude && biz.longitude] takes the latitude 0
    for a missing one. *)
Theorem ranker_keeps_beyond_radius :
  latitude equatorCafe = Some 0%float
  /\ longitude equatorCafe = Some (-74)%float
  /\ getDistance tabulatedMath newYork
       {| coords_latitude := 0%float; coords_longitude := (-74)%float |}
     = 0x1.15fcc0c80cbf3p+12%float
  /\ (0x1.15fcc0c80cbf3p+12 <=? 10)%float = false
  /\ forall Math : MathObject,
       businessesWithDistance Math [equatorCafe] 10 (Some newYork)
       = [{| biz := equatorCafe; distance := None |}].
Proof.
  split; [reflexivity|]. split; [reflexivity|].
  split; [vm_compute; reflexivity|]. split; [reflexivity|].
  intros Math. reflexivity.
Qed.

(** ** C3: the order of the output *)

(** C3: for a radius other than [Infinity], the output of the ranker is
    non-decreasing by distance with every undefined distance after every
    defined one, and the entries of equal distance are in the order the
    input gave them. *)
Theorem ranker_sorted_stable (Math : MathObject) (bs : list Business) (R : float)
    (location : option LocationCoords) :
  (R =? infinity)%float = false ->
  StronglySorted (fun a b => distance_le (distance a) (distance b))
    (businessesWithDistance Math bs R location)
  /\ forall d,
       filter (fun r => sameDistance (distance r) d)
         (businessesWithDistance Math bs R location)
       = filter (fun r => sameDistance (distance r) d)
           (filter (withinRadius R) (List.map (ranked Math location) bs)).
Proof.
  intros HR. split.
  - apply sorted_by_distance. exact HR.
  - intros d. apply stable_by_distance.
Qed.

(** On the sample, with a radius of 200 km. *)
Lemma ranker_sorted_witness :
  StronglySorted (fun a b => distance_le (distance a) (distance b))
    (businessesWithDistance smallAngleMath sampleBusinesses 200 (Some newYork))
  /\ forall d,
       filter (fun r => sameDistance (distance r) d)
         (businessesWithDistance smallAngleMath sampleBusinesses 200 (Some newYork))
       = filter (fun r => sameDistance (distance r) d)
           (filter (withinRadius 200)
              (List.map (ranked smallAngleMath (Some newYork)) sampleBusinesses)).
Proof.
  apply (ranker_sorted_stable smallAngleMath sampleBusinesses 200 (Some newYork)).
  reflexivity.
Defined.

(** ** C4: the distance *)

(** Facts on the tabulated [Math]. *)
Lemma abs_opp (x : float) : abs (- x) = abs x.
Proof.
  apply Prim2SF_inj. rewrite !abs_spec, opp_spec. destruct (Prim2SF x); reflexivity.
Qed.

Lemma ltb_zero_opp (x v : float) :
  (abs x =? v)%float = true -> (v =? 0)%float = false ->
  (- x <? 0)%float = negb (x <? 0)%float.
Proof.
  rewrite !FloatAxioms.eqb_spec, !FloatAxioms.ltb_spec, abs_spec, opp_spec.
  replace (Prim2SF 0) with (S754_zero false) by reflexivity.
  destruct (Prim2SF x) as [s|s| |s m e], (Prim2SF v) as [s'|s'| |s' m' e'];
    try destruct s; try destruct s'; cbn; intros; try discriminate; reflexivity.
Qed.

Lemma withSignOf_opp (x v s : float) :
  (abs x =? v)%float = true -> (v =? 0)%float = false ->
  withSignOf (- x) s = (- withSignOf x s)%float.
Proof.
  intros Hx Hv. unfold withSignOf. rewrite (ltb_zero_opp x v Hx Hv).
  destruct (x <? 0)%float; cbn [negb]; [|reflexivity].
  apply Prim2SF_inj. rewrite !opp_spec. destruct (Prim2SF s); cbn; try reflexivity;
    rewrite negb_involutive; reflexivity.
Qed.

Lemma tabulatedMath_laws : MathLaws tabulatedMath.
Proof.
  split.
  - intros x. cbn [Math_sin tabulatedMath]. rewrite abs_opp.
    destruct (abs x =? 0x1.1df46a2529d39p-3)%float eqn:E1;
      [eapply withSignOf_opp; [exact E1 | reflexivity]|].
    destruct (abs x =? 0x1.657184ae74487p-2)%float eqn:E2;
      [eapply withSignOf_opp; [exact E2 | reflexivity]|].
    destruct (abs x =? 0x1.921fb54442d18p+0)%float eqn:E3;
      [eapply withSignOf_opp; [exact E3 | reflexivity]|].
    reflexivity.
  - reflexivity.
  - intros x _. cbn [Math_cos tabulatedMath].
    destruct (abs x =? 0x1.1df46a2529d39p-3)%float; [reflexivity|].
    destruct (abs x =? 0x1.657184ae74487p-1)%float; reflexivity.
  - reflexivity.
Qed.

Lemma eqb_same (x y : float) : x = y -> is_nan x = false -> (x =? y)%float = true.
Proof. intros <-. unfold is_nan. apply negb_false_iff. Qed.




(** ** C5: toggling a favorite twice *)

(** C5, as stated, fails: when the favorites hold another record with the
    id of the toggled business, two toggles leave the toggled record in its
    place. *)
Lemma toggle_twice_replaces_entry :
  let st := {| favorites := [firstAbc]; favoriteBusinesses := Stored [firstAbc] |} in
  ~ sameEntries (favorites (toggleFavorite (toggleFavorite st secondAbc) secondAbc))
      (favorites st).
Proof.
  intros st H. destruct (H secondAbc) as [H1 _].
  assert (Hin : In secondAbc [firstAbc]) by (apply H1; vm_compute; auto).
  destruct Hin as [E | []]. discriminate E.
Qed.

(** C5 (amended): two toggles of a business [b] restore the set of
    [placeId]s of the favorites; they restore the list itself when the id
    of [b] was absent, and otherwise give the list without its entries of
    that id followed by [b], which has the entries of the original list
    when every entry with the id of [b] is [b] itself. *)
Theorem toggleFavorite_twice (st : Favorites) (b : Business) :
  let twice := favorites (toggleFavorite (toggleFavorite st b) b) in
  (forall k, In k (List.map placeId twice) <-> In k (List.map placeId (favorites st)))
  /\ (isFavorite (favorites st) b = false -> twice = favorites st)
  /\ (isFavorite (favorites st) b = true ->
      twice = filter (otherId b) (favorites st) ++ [b])
  /\ ((forall f, In f (favorites st) -> placeId f = placeId b -> f = b) ->
      sameEntries twice (favorites st)).
Proof.
  cbn [toggleFavorite favorites]. split; [|split; [|split]].
  - intros k. apply toggle_twice_ids.
  - apply toggle_twice_absent.
  - apply toggle_twice_present.
  - apply toggle_twice_entries.
Qed.

(** On the sample: toggling a business that is itself a favorite. *)
Lemma toggleFavorite_twice_witness :
  let st := {| favorites := [nearCafe; farCafe]; favoriteBusinesses := NoItem |} in
  sameEntries (favorites (toggleFavorite (toggleFavorite st nearCafe) nearCafe))
    (favorites st).
Proof.
  intros st.
  apply (proj2 (proj2 (proj2 (toggleFavorite_twice st nearCafe)))).
  intros f [<- | [<- | []]] E; [reflexivity | vm_compute in E; discriminate E].
Defined.

(** ** C6: validation before the lookup *)

(** C6: [handleSearch] validates in order. A category that is blank after
    trimming gives the missing-category error; otherwise, no coordinates and
    a manual location that is blank after trimming give the missing-location
    error. In both cases setting the error is all the handler does: no
    lookup is called. *)
Theorem handleSearch_validates_first (env : Environment) (st : SearchState) :
  (trim (searchTerm st) = [] ->
   handleSearch env st = [SetError (Some MISSING_CATEGORY)]
   /\ filter isLookup (handleSearch env st) = []
   /\ error (afterSearch env st) = Some MISSING_CATEGORY)
  /\ (trim (searchTerm st) <> [] -> location st = None -> trim (manualLocation st) = [] ->
      handleSearch env st = [SetError (Some MISSING_LOCATION)]
      /\ filter isLookup (handleSearch env st) = []
      /\ error (afterSearch env st) = Some MISSING_LOCATION).
Proof.
  unfold afterSearch, handleSearch. split.
  - intros Hc. rewrite Hc. cbn. auto.
  - intros Hc Hl Hm. rewrite Hl, Hm.
    destruct (trim (searchTerm st)); [contradiction|]. cbn. auto.
Qed.

(** On the sample: a blank category, then a blank manual location with no
    coordinates. *)
Lemma handleSearch_validates_witness :
  handleSearch silentEnvironment (searchFor "  " EmptyString None [nearCafe])
    = [SetError (Some MISSING_CATEGORY)]
  /\ handleSearch silentEnvironment (searchFor "cafes" " " None [nearCafe])
    = [SetError (Some MISSING_LOCATION)].
Proof.
  split.
  - apply (proj1 (handleSearch_validates_first silentEnvironment
                    (searchFor "  " EmptyString None [nearCafe]))).
    reflexivity.
  - apply (proj2 (handleSearch_validates_first silentEnvironment
                    (searchFor "cafes" " " None [nearCafe]))).
    + vm_compute. discriminate.
    + reflexivity.
    + reflexivity.
Defined.

(** ** C7: unique ids in the favorites store *)

(** C7: loading, toggling and querying the favorites, in any sequence,
    preserve the invariant that no two entries share a [placeId], for the
    [favorites] state and for the persisted list alike. *)
Theorem favorites_unique_ids_preserved (ops : list FavoritesOp) (st : Favorites) :
  storeInvariant st ->
  storeInvariant (fold_left (fun s op => runOp op s) ops st)
  /\ forall b, isFavorite (favorites st) b = true <->
               exists f, In f (favorites st) /\ placeId f = placeId b.
Proof.
  intros Hinv. split; [|intros b; apply isFavorite_true].
  revert st Hinv. induction ops as [|op ops IH]; intros st Hinv; cbn [fold_left].
  - exact Hinv.
  - apply IH. apply runOp_invariant. exact Hinv.
Qed.

(** On the sample: a load followed by toggles and a query. *)
Lemma favorites_unique_ids_witness :
  storeInvariant
    (fold_left (fun s op => runOp op s)
       [Load; Toggle secondAbc; IsFavorite firstAbc; Toggle nearCafe; Toggle secondAbc]
       {| favorites := []; favoriteBusinesses := Stored [firstAbc; farCafe] |}).
Proof.
  apply favorites_unique_ids_preserved.
  split; cbn [favorites favoriteBusinesses]; unfold uniqueIds.
  - constructor.
  - vm_compute. repeat constructor; cbn [In]; intuition discriminate.
Defined.

(** ** C8: a lookup that finds nothing *)

(** C8, as stated, fails: the empty result is reported through the error
    state. *)
Lemma empty_result_sets_error :
  ~ emptyResultIsNoError silentEnvironment (searchFor "cafes" EmptyString (Some newYork) []).
Proof.
  intros H. specialize (H eq_refl). vm_compute in H. discriminate H.
Qed.

(** C8 (amended): when the inputs are valid and the lookup succeeds with
    an empty de-duplicated list, [handleSearch] reports it through the same
    [error] state a failed lookup uses, with the message
    [No results found for "<category>". Try a different category or
    location.]; the results stay empty and loading ends. The message differs
    from every message of a failed lookup. *)
Theorem empty_result_reported_by_message (env : Environment) (st : SearchState) :
  validInputs st ->
  snd (findNearbyBusinesses env (searchTerm st) (location st) (manualLocation st)) = Ok [] ->
  error (afterSearch env st) = Some (noResultsMessage (searchTerm st))
  /\ businesses (afterSearch env st) = []
  /\ isLoading (afterSearch env st) = false
  /\ forall env' category loc manual t,
       snd (findNearbyBusinesses env' category loc manual) = Throw t ->
       t <> JsError (noResultsMessage (searchTerm st)).
Proof.
  intros Hv Hok. rewrite (afterSearch_valid env st Hv), Hok. cbn.
  repeat split. intros env' category loc manual t Ht.
  apply findNearbyBusinesses_throws in Ht. destruct Ht as (t0 & ->).
  apply noResultsMessage_not_failure.
Qed.

(** On the sample: the model answers with no text. *)
Lemma empty_result_witness :
  error (afterSearch silentEnvironment (searchFor "cafes" EmptyString (Some newYork) [nearCafe]))
  = Some (noResultsMessage (js "cafes")).
Proof.
  apply (empty_result_reported_by_message silentEnvironment
           (searchFor "cafes" EmptyString (Some newYork) [nearCafe])).
  - split; [vm_compute; discriminate | left; discriminate].
  - reflexivity.
Defined.

(** ** C9: a coordinate equal to zero *)

(** C9: a business with a latitude or a longitude equal to [0] is treated
    as having no coordinates: no distance is computed for it, in the ranker
    or on a favorite's card; it passes the filter whatever the radius; and,
    for a radius other than [Infinity], every entry after it in the output
    has an undefined distance, so it comes after every defined distance. *)
Theorem zero_coordinate_unranked (Math : MathObject) (bs : list Business) (R : float)
    (L : LocationCoords) (b : Business) :
  In b bs -> zeroCoordinate b ->
  attachDistance Math L b = {| biz := b; distance := None |}
  /\ favoriteDistance Math (Some L) b = None
  /\ In {| biz := b; distance := None |} (businessesWithDistance Math bs R (Some L))
  /\ ((R =? infinity)%float = false ->
      forall pre post,
        businessesWithDistance Math bs R (Some L)
        = pre ++ {| biz := b; distance := None |} :: post ->
        Forall (fun r => distance r = None) post).
Proof.
  intros Hb Hz. pose proof (zeroCoordinate_without b Hz) as Hc.
  split; [apply attachDistance_without; exact Hc|]. split; [|split].
  - unfold favoriteDistance. rewrite Hc. reflexivity.
  - apply In_businessesWithDistance. split; [|reflexivity].
    exists b. split; [exact Hb|]. cbn [ranked]. symmetry.
    apply attachDistance_without. exact Hc.
  - intros HR pre post E.
    pose proof (sorted_by_distance Math bs R (Some L) HR) as Hs.
    rewrite E in Hs. apply StronglySorted_suffix in Hs.
    inversion Hs as [|? ? _ Hall]; subst.
    eapply Forall_impl; [|exact Hall]. cbn [distance].
    intros r Hr. destruct (distance r); [contradiction | reflexivity].
Qed.

(** On the sample: the cafe on the equator, with a radius of 1 km. *)
Lemma zero_coordinate_witness :
  attachDistance smallAngleMath newYork equatorCafe
  = {| biz := equatorCafe; distance := None |}
  /\ In {| biz := equatorCafe; distance := None |}
       (businessesWithDistance smallAngleMath sampleBusinesses 1 (Some newYork)).
Proof.
  pose proof (zero_coordinate_unranked smallAngleMath sampleBusinesses 1 newYork equatorCafe)
    as H.
  destruct H as (H1 & _ & H3 & _).
  - vm_compute. auto.
  - left. exists 0%float. split; reflexivity.
  - split; assumption.
Defined.

(** ** C10: the results are cleared before the lookup *)

(** C10: with valid inputs, [handleSearch] sets the results to the empty
    list before it calls the lookup, and when the lookup fails the results
    are left empty, with the failure's message as the error and loading
    ended: the results of the previous search are not restored. *)
Theorem handleSearch_clears_before_lookup (env : Environment) (st : SearchState) :
  validInputs st ->
  (exists rest,
     handleSearch env st =
       [SetIsLoading true; SetError None; SetBusinesses [];
        CallFindNearbyBusinesses (searchTerm st) (location st) (manualLocation st)]
       ++ rest)
  /\ forall t,
       snd (findNearbyBusinesses env (searchTerm st) (location st) (manualLocation st))
       = Throw t ->
       businesses (afterSearch env st) = []
       /\ isLoading (afterSearch env st) = false
       /\ exists message, t = JsError message /\ error (afterSearch env st) = Some message.
Proof.
  intros Hv. split.
  - rewrite (handleSearch_valid env st Hv). eauto.
  - intros t Ht. rewrite (afterSearch_valid env st Hv), Ht.
    apply findNearbyBusinesses_throws in Ht. destruct Ht as (t0 & ->).
    destruct t0 as [m|]; cbn; eauto.
Qed.

(** On the sample: the model rejects the request. *)
Lemma handleSearch_clears_witness :
  businesses (afterSearch failingEnvironment (searchFor "cafes" EmptyString (Some newYork) [nearCafe]))
  = [].
Proof.
  pose proof (handleSearch_clears_before_lookup failingEnvironment
                (searchFor "cafes" EmptyString (Some newYork) [nearCafe])) as H.
  destruct H as [_ H].
  - split; [vm_compute; discriminate | left; discriminate].
  - destruct (H _ eq_refl) as [Hb _]. exact Hb.
Defined.

(** * Further properties: de-duplication and the lookup *)

Lemma Map_set_absent {V : Type} (k : jsstring) (v : V) (m : @JsMap V) :
  ~ In k (Map_keys m) -> Map_set k v m = m ++ [(k, v)].
Proof.
  induction m as [|[k' v'] m IH]; cbn [Map_set Map_keys List.map fst In app]; [reflexivity|].
  intros Hn. destruct (strict_equals k' k) eqn:E.
  - apply strict_equals_eq in E. tauto.
  - rewrite IH by tauto. reflexivity.
Qed.

Lemma uniqueBusinesses_unique (bs : list Business) :
  uniqueIds bs -> uniqueBusinesses bs = bs.
Proof.
  unfold uniqueIds, uniqueBusinesses, Map_values.
  set (f := fun item : Business => (placeId item, item)).
  intros Hnd.
  assert (E : Map_new (List.map f bs) = List.map f bs).
  { induction bs as [|b bs IH] using rev_ind; [reflexivity|].
    rewrite map_app in *. cbn [List.map] in *.
    apply NoDup_remove in Hnd. rewrite app_nil_r in Hnd. destruct Hnd as [Hnd Hnotin].
    unfold f at 2. rewrite Map_new_snoc, IH by exact Hnd.
    apply Map_set_absent. unfold Map_keys. rewrite map_map. exact Hnotin. }
  rewrite E, map_map. apply map_id.
Qed.

Lemma uniqueBusinesses_uniqueIds (bs : list Business) : uniqueIds (uniqueBusinesses bs).
Proof. unfold uniqueIds. rewrite uniqueBusinesses_ids. apply firstAppearance_NoDup. Qed.

Lemma uniqueBusinesses_In (bs : list Business) (b : Business) :
  In b (uniqueBusinesses bs) -> In b bs.
Proof.
  intros H. apply uniqueBusinesses_last in H. unfold lastWith, firstWith in H.
  apply find_some in H. apply in_rev. tauto.
Qed.

Lemma firstAppearance_length (ids : list jsstring) :
  (List.length (firstAppearance ids) <= List.length ids)%nat.
Proof.
  apply NoDup_incl_length; [apply firstAppearance_NoDup|].
  intros k. apply firstAppearance_In.
Qed.

(** X1: de-duplication changes nothing in a list whose ids are already
    distinct, is idempotent, never lengthens the list, and gives the empty
    list only for the empty list. *)
Theorem uniqueBusinesses_idempotent (bs : list Business) :
  (uniqueIds bs -> uniqueBusinesses bs = bs)
  /\ uniqueBusinesses (uniqueBusinesses bs) = uniqueBusinesses bs
  /\ (List.length (uniqueBusinesses bs) <= List.length bs)%nat
  /\ (uniqueBusinesses bs = [] <-> bs = []).
Proof.
  split; [apply uniqueBusinesses_unique|].
  split; [apply uniqueBusinesses_unique, uniqueBusinesses_uniqueIds|].
  split.
  - rewrite <- (length_map placeId), uniqueBusinesses_ids, <- (length_map placeId bs).
    apply firstAppearance_length.
  - split; [|intros ->; reflexivity].
    intros E. pose proof (uniqueBusinesses_ids bs) as Hids. rewrite E in Hids.
    destruct bs as [|b bs]; [reflexivity | discriminate Hids].
Qed.

Lemma uniqueBusinesses_idempotent_witness :
  uniqueBusinesses [nearCafe; farCafe] = [nearCafe; farCafe].
Proof.
  apply (proj1 (uniqueBusinesses_idempotent [nearCafe; farCafe])).
  unfold uniqueIds. vm_compute. repeat constructor; cbn [In]; intuition discriminate.
Defined.

(** A lookup that succeeds: the key is set, the request was built, the
    model answered, the answer was read, and the result is its
    de-duplication. *)
Lemma findNearbyBusinesses_Ok (env : Environment) (category : jsstring)
    (loc : option LocationCoords) (manual : jsstring) (l : list Business) :
  snd (findNearbyBusinesses env category loc manual) = Ok l ->
  exists request response bs,
    keyIsSet (API_KEY env) = true
    /\ buildRequest category loc manual = Ok request
    /\ generateContent env request = Ok response
    /\ readBusinesses env loc response = Ok bs
    /\ l = uniqueBusinesses bs
    /\ fst (findNearbyBusinesses env category loc manual) = [CallGenerateContent request].
Proof.
  unfold findNearbyBusinesses, tryFindNearbyBusinesses, keyIsSet.
  destruct (API_KEY env) as [[|c key]|]; cbn [snd fst]; try discriminate.
  destruct (buildRequest category loc manual) as [request|t] eqn:Eb;
    cbn [snd fst]; [|discriminate].
  destruct (generateContent env request) as [response|t] eqn:Eg;
    cbn [bind snd fst]; [|discriminate].
  destruct (readBusinesses env loc response) as [bs|t] eqn:Er;
    cbn [bind snd fst]; [|discriminate].
  intros [= <-]. exists request, response, bs. repeat split; assumption || reflexivity.
Qed.

Lemma rethrow_message (t : thrown) : exists c m, rethrow t = JsError (c :: m).
Proof. destruct t as [message|]; cbn; eauto. Qed.

(** The three ways a lookup can go. *)
Lemma findNearbyBusinesses_cases (env : Environment) (category : jsstring)
    (loc : option LocationCoords) (manual : jsstring) :
  match findNearbyBusinesses env category loc manual with
  | (events, Ok l) =>
      uniqueIds l /\ exists request,
        events = [CallGenerateContent request]
        /\ keyIsSet (API_KEY env) = true
        /\ buildRequest category loc manual = Ok request
  | (events, Throw t) =>
      (exists c message, t = JsError (c :: message))
      /\ ((events = [ConsoleError]
           /\ (keyIsSet (API_KEY env) = false
               \/ exists t0, buildRequest category loc manual = Throw t0))
          \/ exists request,
               events = [CallGenerateContent request; ConsoleError]
               /\ keyIsSet (API_KEY env) = true
               /\ buildRequest category loc manual = Ok request)
  end.
Proof.
  destruct (findNearbyBusinesses env category loc manual) as [events [l|t]] eqn:E.
  - pose proof (findNearbyBusinesses_Ok env category loc manual l) as H.
    rewrite E in H.
    destruct (H eq_refl) as (request & response & bs & Hk & Hb & _ & _ & -> & Hev).
    split; [apply uniqueBusinesses_uniqueIds | eauto].
  - revert E. unfold findNearbyBusinesses.
    destruct (tryFindNearbyBusinesses env category loc manual) as [events0 [l|t0]] eqn:Et;
      [discriminate|].
    intros [= <- <-]. split; [apply rethrow_message|].
    revert Et. unfold tryFindNearbyBusinesses, keyIsSet.
    destruct (API_KEY env) as [[|c key]|]; try (intros [= <- _]; left; auto).
    destruct (buildRequest category loc manual) as [request|t1] eqn:Eb;
      [|intros [= <- _]; left; eauto].
    intros [= <- _]. right. exists request. repeat split; reflexivity.
Qed.

(** X2: a lookup calls the model at most once and never before the key
    and the location are checked; when it succeeds nothing is logged and the
    result has distinct ids; when it fails the failure is logged once, last,
    and what is thrown is an [Error] with a message that is not empty. *)
Theorem findNearbyBusinesses_outcomes (env : Environment) (category : jsstring)
    (loc : option LocationCoords) (manual : jsstring) :
  match findNearbyBusinesses env category loc manual with
  | (events, Ok l) =>
      uniqueIds l /\ exists request,
        events = [CallGenerateContent request]
        /\ buildRequest category loc manual = Ok request
  | (events, Throw t) =>
      (exists c message, t = JsError (c :: message))
      /\ (events = [ConsoleError]
          \/ exists request,
               events = [CallGenerateContent request; ConsoleError]
               /\ keyIsSet (API_KEY env) = true
               /\ buildRequest category loc manual = Ok request)
  end.
Proof.
  pose proof (findNearbyBusinesses_cases env category loc manual) as H.
  destruct (findNearbyBusinesses env category loc manual) as [events [l|t]].
  - destruct H as [Hu (request & He & _ & Hb)]. eauto.
  - destruct H as [Ht [[He _] | H]]; auto.
Qed.

(** X3: without an API key the lookup fails with the message of the
    missing key and the model is never called. *)
Theorem findNearbyBusinesses_without_key (env : Environment) (category : jsstring)
    (loc : option LocationCoords) (manual : jsstring) :
  keyIsSet (API_KEY env) = false ->
  findNearbyBusinesses env category loc manual
  = ([ConsoleError],
     Throw (JsError (js "Failed to find businesses: API_KEY environment variable not set"))).
Proof.
  unfold findNearbyBusinesses, tryFindNearbyBusinesses, keyIsSet.
  destruct (API_KEY env) as [[|c key]|]; try discriminate; reflexivity.
Qed.

Lemma findNearbyBusinesses_without_key_witness :
  snd (findNearbyBusinesses
         {| API_KEY := None;
            generateContent := generateContent silentEnvironment;
            encodeURIComponent := encodeURIComponent silentEnvironment |}
         (js "cafes") (Some newYork) [])
  = Throw (JsError (js "Failed to find businesses: API_KEY environment variable not set")).
Proof.
  rewrite findNearbyBusinesses_without_key; reflexivity.
Defined.

Lemma map_throwing_Ok {A B : Type} (f : A -> result B) (l : list A) (bs : list B) :
  map_throwing f l = Ok bs -> Forall2 (fun a b => f a = Ok b) l bs.
Proof.
  revert bs. induction l as [|a l IH]; cbn [map_throwing]; intros bs.
  - intros [= <-]. constructor.
  - destruct (f a) as [b|t] eqn:Ea; cbn [bind]; [|discriminate].
    destruct (map_throwing f l) as [bs'|t]; cbn [bind]; [|discriminate].
    intros [= <-]. constructor; auto.
Qed.

Lemma Forall2_In_r {A B : Type} (R : A -> B -> Prop) (l : list A) (l' : list B) (b : B) :
  Forall2 R l l' -> In b l' -> exists a, In a l /\ R a b.
Proof.
  induction 1 as [|a b' l l' Hab _ IH]; cbn [In]; [tauto|].
  intros [<- | Hin]; [eauto|]. destruct (IH Hin) as (a' & Ha' & Hr). eauto.
Qed.

(** X4: a business found by a manual location has no coordinates, and
    its title and its link are not empty. *)
Theorem manual_search_results (env : Environment) (category manual : jsstring)
    (l : list Business) (b : Business) :
  snd (findNearbyBusinesses env category None manual) = Ok l ->
  In b l ->
  latitude b = None /\ longitude b = None /\ title b <> [] /\ uri b <> [].
Proof.
  intros Hok Hin. apply findNearbyBusinesses_Ok in Hok.
  destruct Hok as (request & response & bs & _ & _ & _ & Hread & -> & _).
  apply uniqueBusinesses_In in Hin. cbn [readBusinesses] in Hread.
  destruct (groundingChunks response) as [[|c cs]|]; try (injection Hread as <-; contradiction).
  apply map_throwing_Ok in Hread.
  destruct (Forall2_In_r _ _ _ _ Hread Hin) as (chunk & Hc & Hb).
  apply filter_In in Hc. destruct Hc as [_ Hu].
  unfold usableChunk, fromChunk in *. destruct (maps chunk) as [m|]; [|discriminate].
  injection Hb as <-. cbn. apply andb_true_iff in Hu. destruct Hu as [Ht Hu].
  repeat split; intros E; rewrite E in *; discriminate.
Qed.

Lemma manual_search_witness :
  latitude (sampleBusiness "Grounded Cafe" "abc" None None) = None
  /\ longitude (sampleBusiness "Grounded Cafe" "abc" None None) = None
  /\ title (sampleBusiness "Grounded Cafe" "abc" None None) <> []
  /\ uri (sampleBusiness "Grounded Cafe" "abc" None None) <> [].
Proof.
  apply (manual_search_results groundedEnvironment (js "cafes") (js "Paris")
           [sampleBusiness "Grounded Cafe" "abc" None None]).
  - vm_compute. reflexivity.
  - left. reflexivity.
Defined.

(** * Further properties: the favorites store *)

(** X5: a toggle flips whether the business is a favorite and leaves the
    answer for every business of another id as it was. *)
Theorem toggleFavorite_flips (st : Favorites) (b : Business) :
  isFavorite (favorites (toggleFavorite st b)) b = negb (isFavorite (favorites st) b)
  /\ forall b', placeId b' <> placeId b ->
       isFavorite (favorites (toggleFavorite st b)) b' = isFavorite (favorites st) b'.
Proof.
  cbn [toggleFavorite favorites]. split.
  - destruct (isFavorite (favorites st) b) eqn:H.
    + rewrite (updatedFavorites_present _ _ H). apply isFavorite_filter.
    + rewrite (updatedFavorites_absent _ _ H). apply isFavorite_snoc.
  - intros b' Hne. apply eq_true_iff_eq. rewrite !isFavorite_true.
    destruct (isFavorite (favorites st) b) eqn:H.
    + rewrite (updatedFavorites_present _ _ H). split.
      * intros (f & Hin & E). apply filter_In in Hin. exists f. tauto.
      * intros (f & Hin & E). exists f. split; [|exact E]. apply filter_In.
        split; [exact Hin|]. unfold otherId. apply negb_true_iff, strict_equals_neq.
        congruence.
    + rewrite (updatedFavorites_absent _ _ H). split.
      * intros (f & Hin & E). apply in_app_iff in Hin. destruct Hin as [Hin | [<- | []]].
        -- eauto.
        -- congruence.
      * intros (f & Hin & E). exists f. split; [|exact E]. apply in_or_app. auto.
Qed.

Lemma isFavorite_In_ids (l : list Business) (x : Business) :
  isFavorite l x = true <-> In (placeId x) (List.map placeId l).
Proof.
  rewrite isFavorite_true, in_map_iff. split; intros (f & H1 & H2); exists f; tauto.
Qed.

Lemma isFavorite_ids (l1 l2 : list Business) (x : Business) :
  List.map placeId l1 = List.map placeId l2 -> isFavorite l1 x = isFavorite l2 x.
Proof.
  intros E. apply eq_true_iff_eq. rewrite !isFavorite_In_ids, E. reflexivity.
Qed.

Lemma not_finite_not_infinite (v : float) :
  is_finite v = false -> is_infinity v = false -> is_nan v = true.
Proof.
  unfold is_finite. intros Hf Hi. rewrite Hi, orb_false_r in Hf.
  apply negb_false_iff. exact Hf.
Qed.

(** A coordinate that is not an infinity is truthy after the round trip
    through JSON exactly when it was before, and a truthy one comes back
    unchanged. *)
Lemma JSON_optional_truthy (x : option float) :
  notInfinite x ->
  truthy (JSON_optional x) = truthy x
  /\ (truthy x = true -> JSON_optional x = x).
Proof.
  destruct x as [v|]; cbn [notInfinite JSON_optional truthy]; [|auto].
  intros Hi. unfold JSON_number, truthy_number.
  destruct (is_finite v) eqn:Hf.
  - destruct (v =? 0)%float eqn:Hz; cbn [truthy truthy_number negb andb].
    + split; [reflexivity | discriminate].
    + unfold truthy_number. rewrite Hz. auto.
  - rewrite (not_finite_not_infinite v Hf Hi). rewrite andb_false_r.
    split; [reflexivity | discriminate].
Qed.

Lemma favoriteDistance_JSON (Math : MathObject) (location : option LocationCoords)
    (f : Business) :
  notInfinite (latitude f) -> notInfinite (longitude f) ->
  favoriteDistance Math location (JSON_business f) = favoriteDistance Math location f.
Proof.
  intros Hla Hlo.
  destruct (JSON_optional_truthy _ Hla) as [Tla Kla].
  destruct (JSON_optional_truthy _ Hlo) as [Tlo Klo].
  unfold favoriteDistance, hasCoordinates, JSON_business.
  cbn [latitude longitude]. rewrite Tla, Tlo.
  destruct (truthy (latitude f)) eqn:Ela; cbn [andb].
  - destruct (truthy (longitude f)) eqn:Elo.
    + rewrite (Kla eq_refl), (Klo eq_refl). reflexivity.
    + destruct location, (JSON_optional (latitude f)), (JSON_optional (longitude f)),
        (latitude f), (longitude f); reflexivity.
  - destruct location, (JSON_optional (latitude f)), (JSON_optional (longitude f)),
      (latitude f), (longitude f); reflexivity.
Qed.

(** X6: what a toggle saves is what the next page load shows. Starting
    from the empty initial state, the load effect reads back favorites with
    the ids, titles and links of the saved list, in its order; they answer
    [isFavorite] alike; the stored item is left as the toggle wrote it; and
    when no saved coordinate is an infinity, the favorites' cards show the
    same distances as before the reload (a [NaN] or zero coordinate gives no
    distance before and after). *)
Theorem favorites_survive_reload (Math : MathObject) (st : Favorites) (b : Business) :
  let saved := toggleFavorite st b in
  let reloaded := mountFavorites (favoriteBusinesses saved) in
  List.map placeId (favorites reloaded) = List.map placeId (favorites saved)
  /\ List.map title (favorites reloaded) = List.map title (favorites saved)
  /\ List.map uri (favorites reloaded) = List.map uri (favorites saved)
  /\ (forall x, isFavorite (favorites reloaded) x = isFavorite (favorites saved) x)
  /\ favoriteBusinesses reloaded = favoriteBusinesses saved
  /\ (Forall (fun f => notInfinite (latitude f) /\ notInfinite (longitude f))
             (favorites saved) ->
      forall location,
        List.map (favoriteDistance Math location) (favorites reloaded)
        = List.map (favoriteDistance Math location) (favorites saved)).
Proof.
  cbv beta iota zeta delta [toggleFavorite mountFavorites loadFavorites JSON_stringify
                             favorites favoriteBusinesses].
  set (updated := updatedFavorites (favorites st) b).
  assert (Hids : List.map placeId (List.map JSON_business updated) = List.map placeId updated)
    by apply JSON_business_ids.
  split; [exact Hids|].
  split; [rewrite map_map; reflexivity|].
  split; [rewrite map_map; reflexivity|].
  split; [intros x; apply isFavorite_ids; exact Hids|].
  split; [reflexivity|].
  intros Hfin location. rewrite map_map. apply map_ext_in. intros f Hf.
  rewrite Forall_forall in Hfin. destruct (Hfin f Hf) as [Hla Hlo].
  apply favoriteDistance_JSON; assumption.
Qed.

(** On the sample: the near cafe saved from an empty store. *)
Lemma favorites_survive_reload_witness :
  List.map (favoriteDistance smallAngleMath (Some newYork))
    (favorites (mountFavorites
                  (favoriteBusinesses
                     (toggleFavorite {| favorites := []; favoriteBusinesses := NoItem |}
                        nearCafe))))
  = List.map (favoriteDistance smallAngleMath (Some newYork))
      (favorites (toggleFavorite {| favorites := []; favoriteBusinesses := NoItem |}
                    nearCafe)).
Proof.
  apply (favorites_survive_reload smallAngleMath
           {| favorites := []; favoriteBusinesses := NoItem |} nearCafe).
  repeat constructor.
Defined.

(** * Further properties: the ranking pipeline *)

Lemma float_leb_trans (a b c : float) :
  (a <=? b)%float = true -> (b <=? c)%float = true -> (a <=? c)%float = true.
Proof.
  intros Hab Hbc.
  destruct (Binary64Facts.leb_not_nan _ _ Hab) as [Na Nb].
  destruct (Binary64Facts.leb_not_nan _ _ Hbc) as [_ Nc].
  rewrite Binary64Facts.leb_val in * by assumption.
  apply Z.leb_le in Hab, Hbc. apply Z.leb_le. lia.
Qed.

Lemma withinRadius_mono (R1 R2 : float) (r : Ranked) :
  (R1 <=? R2)%float = true -> withinRadius R1 r = true -> withinRadius R2 r = true.
Proof.
  unfold withinRadius. intros HR. destruct (distance r) as [d|]; [|reflexivity].
  intros Hd. eapply float_leb_trans; eassumption.
Qed.

Lemma map_biz_kept (Math : MathObject) (bs : list Business) (R : float)
    (location : option LocationCoords) :
  List.map biz (filter (withinRadius R) (List.map (ranked Math location) bs))
  = filter (fun b => withinRadius R (ranked Math location b)) bs.
Proof.
  induction bs as [|b bs IH]; [reflexivity|]. cbn [List.map filter].
  destruct (withinRadius R (ranked Math location b)) eqn:E; cbn [List.map]; rewrite IH;
    [|reflexivity].
  f_equal. destruct location; cbn [ranked biz]; [apply attachDistance_biz | reflexivity].
Qed.

Lemma businessesWithDistance_perm (Math : MathObject) (bs : list Business) (R : float)
    (location : option LocationCoords) :
  Permutation (businessesWithDistance Math bs R location)
    (filter (withinRadius R) (List.map (ranked Math location) bs)).
Proof.
  rewrite businessesWithDistance_staged. destruct location; [apply Array_sort_perm | reflexivity].
Qed.

(** X7: the ranker neither invents nor repeats a business: the businesses
    of its output are, up to order, the input businesses that pass the
    filter, so the output is no longer than the input and distinct ids stay
    distinct; without a location the output is the input, in its order, with
    no distance, whatever the radius. *)
Theorem ranker_output_businesses (Math : MathObject) (bs : list Business) (R : float)
    (location : option LocationCoords) :
  Permutation (List.map biz (businessesWithDistance Math bs R location))
    (filter (fun b => withinRadius R (ranked Math location b)) bs)
  /\ (List.length (businessesWithDistance Math bs R location) <= List.length bs)%nat
  /\ (uniqueIds bs -> uniqueIds (List.map biz (businessesWithDistance Math bs R location)))
  /\ (location = None ->
      List.map biz (businessesWithDistance Math bs R location) = bs
      /\ Forall (fun r => distance r = None) (businessesWithDistance Math bs R location)).
Proof.
  assert (Hp : Permutation (List.map biz (businessesWithDistance Math bs R location))
                 (filter (fun b => withinRadius R (ranked Math location b)) bs)).
  { rewrite <- map_biz_kept. apply Permutation_map, businessesWithDistance_perm. }
  split; [exact Hp|]. split; [|split].
  - rewrite <- (length_map biz), (Permutation_length Hp). apply filter_length_le.
  - unfold uniqueIds. intros Hnd.
    eapply Permutation_NoDup; [symmetry; apply Permutation_map; exact Hp|].
    apply NoDup_map_filter. exact Hnd.
  - intros ->. cbn [businessesWithDistance]. split.
    + rewrite map_map. apply map_id.
    + apply Forall_forall. intros r Hr. apply in_map_iff in Hr.
      destruct Hr as (b & <- & _). reflexivity.
Qed.

Lemma ranker_in_larger_radius (Math : MathObject) (bs : list Business) (R1 R2 : float)
    (location : option LocationCoords) (r : Ranked) :
  (R1 <=? R2)%float = true ->
  In r (businessesWithDistance Math bs R1 location) ->
  In r (businessesWithDistance Math bs R2 location).
Proof.
  intros HR Hin. apply In_businessesWithDistance in Hin. destruct Hin as [Hb Hw].
  apply In_businessesWithDistance. split; [exact Hb|].
  eapply withinRadius_mono; eassumption.
Qed.

(** X8: a larger radius keeps every entry a smaller one keeps, with the
    same distance, and the entries it adds have a distance beyond the
    smaller radius. *)
Theorem ranker_radius_monotone (Math : MathObject) (bs : list Business) (R1 R2 : float)
    (location : option LocationCoords) :
  (R1 <=? R2)%float = true ->
  (forall r, In r (businessesWithDistance Math bs R1 location) ->
             In r (businessesWithDistance Math bs R2 location))
  /\ (forall r, In r (businessesWithDistance Math bs R2 location) ->
                ~ In r (businessesWithDistance Math bs R1 location) ->
                exists d, distance r = Some d /\ (d <=? R1)%float = false).
Proof.
  intros HR. split.
  - intros r. apply ranker_in_larger_radius. exact HR.
  - intros r H2 H1. apply In_businessesWithDistance in H2. destruct H2 as [Hb Hw].
    rewrite In_businessesWithDistance in H1.
    unfold withinRadius in *. destruct (distance r) as [d|]; [|tauto].
    exists d. split; [reflexivity|]. destruct (d <=? R1)%float; [tauto | reflexivity].
Qed.

Lemma ranker_radius_monotone_witness :
  In (attachDistance smallAngleMath newYork nearCafe)
     (businessesWithDistance smallAngleMath sampleBusinesses 50 (Some newYork)).
Proof.
  apply (ranker_radius_monotone smallAngleMath sampleBusinesses 10 50 (Some newYork)).
  - reflexivity.
  - vm_compute. auto.
Defined.

Lemma favoriteCards_spec (Math : MathObject) (favs : list Business)
    (location : option LocationCoords) :
  List.map card_business (List.map (favoriteCard Math location) favs) = favs
  /\ forall c, In c (List.map (favoriteCard Math location) favs) ->
       card_isFavorite c = isFavorite favs (card_business c)
       /\ card_distance c = distance (ranked Math location (card_business c)).
Proof.
  split; [rewrite map_map; apply map_id|].
  intros c Hc. apply in_map_iff in Hc. destruct Hc as (fav & <- & Hin).
  cbn [favoriteCard card_isFavorite card_business card_distance]. split.
  - symmetry. apply isFavorite_true. eauto.
  - unfold favoriteDistance, ranked, attachDistance.
    destruct location, (hasCoordinates fav), (latitude fav), (longitude fav); reflexivity.
Qed.

(** X9: the favorites are rendered one card each, in their order, none
    dropped by the radius; a card is starred as [isFavorite] says and shows
    the distance the ranker computes for the same business. Nothing is
    rendered when there is no favorite. *)
Theorem renderFavorites_cards (Math : MathObject) (favs : list Business)
    (location : option LocationCoords) :
  match renderFavorites Math favs location with
  | None => favs = []
  | Some cards =>
      favs <> []
      /\ List.map card_business cards = favs
      /\ forall c, In c cards ->
           card_isFavorite c = isFavorite favs (card_business c)
           /\ card_distance c = distance (ranked Math location (card_business c))
  end.
Proof.
  unfold renderFavorites. destruct favs as [|f rest]; [reflexivity|].
  split; [discriminate|]. apply favoriteCards_spec.
Qed.

(** * Further properties: the search handler *)

Lemma trimStart_blank (s : jsstring) : trimStart s = [] <-> forallb isWhiteSpace s = true.
Proof.
  induction s as [|c s IH]; cbn [trimStart forallb]; [tauto|].
  destruct (isWhiteSpace c); cbn [andb]; [exact IH | split; discriminate].
Qed.

Lemma trimStart_head (s : jsstring) (c : N) (t : jsstring) :
  trimStart s = c :: t -> isWhiteSpace c = false.
Proof.
  induction s as [|d s IH]; cbn [trimStart]; [discriminate|].
  destruct (isWhiteSpace d) eqn:E; [exact IH | congruence].
Qed.

Lemma forallb_rev {A : Type} (p : A -> bool) (l : list A) :
  forallb p (rev l) = forallb p l.
Proof.
  apply eq_true_iff_eq. rewrite !forallb_forall.
  split; intros H x Hx; apply H; [apply -> in_rev | apply <- in_rev]; exact Hx.
Qed.

(** A string trims to the empty string exactly when it is made of white
    space. *)
Lemma trim_blank (s : jsstring) : trim s = [] <-> forallb isWhiteSpace s = true.
Proof.
  unfold trim, trimEnd. split.
  - intros H. apply (f_equal (@rev N)) in H. rewrite rev_involutive in H. cbn [rev] in H.
    apply trimStart_blank in H. rewrite forallb_rev in H.
    destruct (trimStart s) as [|c t] eqn:E; [apply trimStart_blank; exact E|].
    apply trimStart_head in E. cbn [forallb] in H. rewrite E in H. discriminate.
  - intros H. apply trimStart_blank in H. rewrite H. reflexivity.
Qed.

(** X10: the category is refused exactly when it is made of white space
    only (the empty string included). *)
Theorem handleSearch_refuses_blank (env : Environment) (st : SearchState) :
  handleSearch env st = [SetError (Some MISSING_CATEGORY)]
  <-> forallb isWhiteSpace (searchTerm st) = true.
Proof.
  rewrite <- trim_blank. split.
  - unfold handleSearch. destruct (trim (searchTerm st)) as [|c t]; [reflexivity|].
    cbn [truthy_string negb].
    destruct (_ && _); [intros [= E]; vm_compute in E; discriminate E|].
    destruct (findNearbyBusinesses env _ _ _). discriminate.
  - intros H. unfold handleSearch. rewrite H. reflexivity.
Qed.

Lemma handleSearch_refuses_blank_witness :
  handleSearch silentEnvironment (searchFor "cafes" EmptyString (Some newYork) [])
  <> [SetError (Some MISSING_CATEGORY)].
Proof.
  intros H.
  apply (proj1 (handleSearch_refuses_blank silentEnvironment
                  (searchFor "cafes" EmptyString (Some newYork) []))) in H.
  vm_compute in H. discriminate H.
Defined.

Lemma buildRequest_valid (st : SearchState) :
  validInputs st ->
  buildRequest (searchTerm st) (location st) (manualLocation st) = Ok (requestOf st).
Proof.
  unfold validInputs, buildRequest, requestOf. intros [_ Hl].
  destruct (location st); [reflexivity|].
  destruct (trim (manualLocation st)); [|reflexivity]. destruct Hl; congruence.
Qed.

Lemma afterLookup_no_lookup (term : jsstring) (r : result (list Business)) :
  filter isLookup (afterLookup term r) = [].
Proof.
  destruct r as [[|b l]|[m|]]; reflexivity.
Qed.

(** X11: with inputs that pass the validation and an API key, the
    handler calls the lookup once and the lookup calls the model once, with
    the coordinates when there are coordinates (the manual text is then
    ignored) and with the manual text otherwise: the location check of the
    lookup never fails after the validation of the handler. *)
Theorem handleSearch_calls_once (env : Environment) (st : SearchState) :
  validInputs st -> keyIsSet (API_KEY env) = true ->
  filter isLookup (handleSearch env st)
  = [CallFindNearbyBusinesses (searchTerm st) (location st) (manualLocation st);
     CallGenerateContent (requestOf st)].
Proof.
  intros Hv Hk. rewrite (handleSearch_valid env st Hv).
  rewrite !filter_app, afterLookup_no_lookup. cbn [filter isLookup app].
  pose proof (findNearbyBusinesses_cases env (searchTerm st) (location st)
                (manualLocation st)) as H.
  rewrite (buildRequest_valid st Hv), Hk in H.
  destruct (findNearbyBusinesses env _ _ _) as [events [l|t]]; cbn [fst].
  - destruct H as [_ (request & -> & _ & [= <-])]. reflexivity.
  - destruct H as [_ [[_ [H | (t0 & H)]] | (request & -> & _ & [= <-])]];
      [discriminate H | discriminate H | reflexivity].
Qed.

Lemma handleSearch_calls_once_witness :
  filter isLookup
    (handleSearch silentEnvironment (searchFor "cafes" "Paris" (Some newYork) []))
  = [CallFindNearbyBusinesses (js "cafes") (Some newYork) (js "Paris");
     CallGenerateContent (NearCoordinates (js "cafes") newYork)].
Proof.
  apply (handleSearch_calls_once silentEnvironment
           (searchFor "cafes" "Paris" (Some newYork) [])).
  - split; [vm_compute; discriminate | left; discriminate].
  - reflexivity.
Defined.

(** X12: a search with valid inputs leaves the inputs as they were and
    ends with loading off. If the lookup found businesses, they are stored,
    with distinct ids, and any earlier error is cleared; if it found none,
    the results are empty and the error is the no-results message; if it
    failed, the results are empty and the error is the message thrown, which
    is not empty. *)
Theorem afterSearch_outcomes (env : Environment) (st : SearchState) :
  validInputs st ->
  searchTerm (afterSearch env st) = searchTerm st
  /\ manualLocation (afterSearch env st) = manualLocation st
  /\ location (afterSearch env st) = location st
  /\ isLoading (afterSearch env st) = false
  /\ match snd (findNearbyBusinesses env (searchTerm st) (location st) (manualLocation st)) with
     | Ok (b :: l) =>
         businesses (afterSearch env st) = b :: l
         /\ uniqueIds (b :: l)
         /\ error (afterSearch env st) = None
     | Ok [] =>
         businesses (afterSearch env st) = []
         /\ error (afterSearch env st) = Some (noResultsMessage (searchTerm st))
     | Throw t =>
         businesses (afterSearch env st) = []
         /\ exists c message,
              t = JsError (c :: message) /\ error (afterSearch env st) = Some (c :: message)
     end.
Proof.
  intros Hv. rewrite (afterSearch_valid env st Hv).
  pose proof (findNearbyBusinesses_cases env (searchTerm st) (location st)
                (manualLocation st)) as H.
  destruct (findNearbyBusinesses env _ _ _) as [events [[|b l]|t]]; cbn [snd].
  - cbn. repeat split; reflexivity.
  - destruct H as [Hu _]. cbn. repeat split; try reflexivity. exact Hu.
  - destruct H as [(c & m & ->) _]. cbn. repeat split; try reflexivity.
    exists c, m. split; reflexivity.
Qed.

Lemma afterSearch_outcomes_witness :
  isLoading (afterSearch silentEnvironment (searchFor "cafes" EmptyString (Some newYork) []))
  = false.
Proof.
  apply (afterSearch_outcomes silentEnvironment
           (searchFor "cafes" EmptyString (Some newYork) [])).
  split; [vm_compute; discriminate | left; discriminate].
Defined.

(** * Further properties: what is rendered *)

Lemma MISSING_CATEGORY_head : exists c m, MISSING_CATEGORY = c :: m.
Proof. vm_compute. eauto. Qed.

Lemma MISSING_LOCATION_head : exists c m, MISSING_LOCATION = c :: m.
Proof. vm_compute. eauto. Qed.

Lemma renderContent_error (Math : MathObject) (st : SearchState) (favs : list Business)
    (R : float)
    (c : N) (m : jsstring) :
  isLoading st = false -> error st = Some (c :: m) ->
  renderContent Math st favs R = ShowError (c :: m).
Proof. unfold renderContent. intros -> ->. reflexivity. Qed.

(** X13: a search refused by the validation keeps the results of the
    previous search in the state, but what is rendered (when nothing is
    loading) is the error alone: the results are hidden, not cleared. *)
Theorem refused_search_hides_results (Math : MathObject) (env : Environment) (st : SearchState)
    (favs : list Business) (R : float) :
  trim (searchTerm st) = [] \/ (location st = None /\ trim (manualLocation st) = []) ->
  businesses (afterSearch env st) = businesses st
  /\ isLoading (afterSearch env st) = isLoading st
  /\ (isLoading st = false ->
      exists message,
        renderContent Math (afterSearch env st) favs R = ShowError message
        /\ (message = MISSING_CATEGORY \/ message = MISSING_LOCATION)).
Proof.
  intros H. unfold afterSearch, handleSearch.
  destruct (trim (searchTerm st)) as [|c t] eqn:Ec; cbn [truthy_string negb].
  - cbn [fold_left setState businesses isLoading]. repeat split.
    intros Hl. exists MISSING_CATEGORY. split; [|auto].
    destruct MISSING_CATEGORY_head as (c & m & E). rewrite E.
    apply renderContent_error; [exact Hl | reflexivity].
  - destruct H as [H | [Hloc Hm]]; [discriminate|]. rewrite Hloc, Hm.
    cbn [truthy_string negb andb fold_left setState businesses isLoading]. repeat split.
    intros Hl. exists MISSING_LOCATION. split; [|auto].
    destruct MISSING_LOCATION_head as (c' & m & E). rewrite E.
    apply renderContent_error; [exact Hl | reflexivity].
Qed.

(** X14: after a search with valid inputs the content is never the
    loader, the welcome text or nothing: it is the error when one is set,
    and otherwise the cards of the ranked results or, when the radius leaves
    none, the out-of-radius text. *)
Theorem content_after_search (Math : MathObject) (env : Environment) (st : SearchState)
    (favs : list Business) (R : float) :
  validInputs st ->
  match renderContent Math (afterSearch env st) favs R with
  | ShowError message => error (afterSearch env st) = Some message
  | ShowResults cards =>
      error (afterSearch env st) = None
      /\ cards = List.map (resultCard favs)
                   (businessesWithDistance Math (businesses (afterSearch env st)) R
                      (location st))
      /\ cards <> []
  | ShowOutOfRadius R' =>
      error (afterSearch env st) = None /\ R' = R
      /\ businesses (afterSearch env st) <> []
      /\ businessesWithDistance Math (businesses (afterSearch env st)) R (location st) = []
  | ShowLoader | ShowWelcome | ShowNothing => False
  end.
Proof.
  intros Hv. rewrite (afterSearch_valid env st Hv).
  pose proof (findNearbyBusinesses_cases env (searchTerm st) (location st)
                (manualLocation st)) as H.
  destruct (findNearbyBusinesses env _ _ _) as [events [[|b l]|t]]; cbn [snd].
  - cbn. reflexivity.
  - unfold renderContent.
    cbn [afterLookup List.length Nat.eqb app fold_left setState isLoading error businesses
         location searchTerm manualLocation].
    destruct (businessesWithDistance Math (b :: l) R (location st)) as [|e es] eqn:E.
    + repeat split. discriminate.
    + repeat split. cbn [List.map]. discriminate.
  - destruct H as [(c & m & ->) _]. cbn. reflexivity.
Qed.

(** X15: the out-of-radius text means what it says: it is rendered only
    when a location is known and every business of the results has usable
    coordinates and a distance that is not within the radius. Without a
    location, or with one business lacking usable coordinates, results are
    never hidden by the radius. *)
Theorem out_of_radius_meaning (Math : MathObject) (st : SearchState)
    (favs : list Business) (R R' : float) :
  renderContent Math st favs R = ShowOutOfRadius R' ->
  R' = R /\ businesses st <> []
  /\ exists loc,
       location st = Some loc
       /\ forall b, In b (businesses st) ->
            hasCoordinates b = true
            /\ withinRadius R (attachDistance Math loc b) = false.
Proof.
  unfold renderContent. destruct (isLoading st); [discriminate|].
  assert (H : match businesses st with
              | _ :: _ =>
                  match businessesWithDistance Math (businesses st) R (location st) with
                  | (_ :: _) as entries => ShowResults (List.map (resultCard favs) entries)
                  | [] => ShowOutOfRadius R
                  end
              | [] => match favs with [] => ShowWelcome | _ :: _ => ShowNothing end
              end = ShowOutOfRadius R' ->
              R' = R /\ businesses st <> []
              /\ exists loc, location st = Some loc
                   /\ forall b, In b (businesses st) ->
                        hasCoordinates b = true
                        /\ withinRadius R (attachDistance Math loc b) = false).
  { destruct (businesses st) as [|b0 bs] eqn:Eb; [destruct favs; discriminate|].
    destruct (businessesWithDistance Math (b0 :: bs) R (location st)) as [|e es] eqn:E;
      [|discriminate].
    intros [= <-]. split; [reflexivity|]. split; [discriminate|].
    pose proof (businessesWithDistance_perm Math (b0 :: bs) R (location st)) as Hp.
    rewrite E in Hp. apply Permutation_nil in Hp.
    assert (Hall : forall b, In b (b0 :: bs) ->
                     withinRadius R (ranked Math (location st) b) = false).
    { intros b Hb. destruct (withinRadius R (ranked Math (location st) b)) eqn:Ew;
        [|reflexivity].
      assert (Hin : In (ranked Math (location st) b)
                      (filter (withinRadius R) (List.map (ranked Math (location st)) (b0 :: bs))))
        by (apply filter_In; split; [apply in_map; exact Hb | exact Ew]).
      rewrite Hp in Hin. contradiction. }
    destruct (location st) as [loc|].
    - exists loc. split; [reflexivity|]. intros b Hb. specialize (Hall b Hb).
      cbn [ranked] in Hall. split; [|exact Hall].
      destruct (hasCoordinates b) eqn:Hc; [reflexivity|].
      rewrite (attachDistance_without Math loc b Hc) in Hall. discriminate Hall.
    - specialize (Hall b0 (or_introl eq_refl)). discriminate Hall. }
  destruct (error st) as [[|c m]|]; [exact H | discriminate | exact H].
Qed.

(** X16: raising the radius never takes cards away: if results are
    rendered at a radius, they are rendered at every larger one, with at
    least the same cards. *)
Theorem larger_radius_keeps_cards (Math : MathObject) (st : SearchState) (favs : list Business)
    (R1 R2 : float) (cards : list Card) :
  (R1 <=? R2)%float = true ->
  renderContent Math st favs R1 = ShowResults cards ->
  exists cards',
    renderContent Math st favs R2 = ShowResults cards'
    /\ forall c, In c cards -> In c cards'.
Proof.
  intros HR. unfold renderContent. destruct (isLoading st); [discriminate|].
  assert (H : match businesses st with
              | _ :: _ =>
                  match businessesWithDistance Math (businesses st) R1 (location st) with
                  | (_ :: _) as entries => ShowResults (List.map (resultCard favs) entries)
                  | [] => ShowOutOfRadius R1
                  end
              | [] => match favs with [] => ShowWelcome | _ :: _ => ShowNothing end
              end = ShowResults cards ->
              exists cards',
                match businesses st with
                | _ :: _ =>
                    match businessesWithDistance Math (businesses st) R2 (location st) with
                    | (_ :: _) as entries => ShowResults (List.map (resultCard favs) entries)
                    | [] => ShowOutOfRadius R2
                    end
                | [] => match favs with [] => ShowWelcome | _ :: _ => ShowNothing end
                end = ShowResults cards'
                /\ forall c, In c cards -> In c cards').
  { destruct (businesses st) as [|b0 bs]; [destruct favs; discriminate|].
    destruct (businessesWithDistance Math (b0 :: bs) R1 (location st)) as [|e es] eqn:E1;
      [discriminate|].
    intros [= <-].
    assert (Hmono : forall r, In r (e :: es) ->
                      In r (businessesWithDistance Math (b0 :: bs) R2 (location st))).
    { intros r Hr. apply (ranker_in_larger_radius Math (b0 :: bs) R1 R2 (location st) r HR).
      rewrite E1. exact Hr. }
    destruct (businessesWithDistance Math (b0 :: bs) R2 (location st)) as [|e' es'] eqn:E2.
    - destruct (Hmono e (or_introl eq_refl)).
    - eexists. split; [reflexivity|]. intros c Hc. apply (in_map_iff (resultCard favs) (e :: es)) in Hc.
      destruct Hc as (r & <- & Hr). apply in_map. apply Hmono. exact Hr. }
  destruct (error st) as [[|c m]|]; [exact H | discriminate | exact H].
Qed.


Lemma refused_search_witness :
  businesses (afterSearch silentEnvironment (searchFor " " EmptyString None [nearCafe]))
  = [nearCafe].
Proof.
  apply (refused_search_hides_results smallAngleMath silentEnvironment
           (searchFor " " EmptyString None [nearCafe]) [] 50).
  left. reflexivity.
Defined.

Lemma content_after_search_witness :
  error (afterSearch failingEnvironment (searchFor "cafes" EmptyString (Some newYork) [nearCafe]))
  = Some (js "Failed to find businesses: quota exceeded").
Proof.
  assert (Hv : validInputs (searchFor "cafes" EmptyString (Some newYork) [nearCafe]))
    by (split; [vm_compute; discriminate | left; discriminate]).
  exact (content_after_search smallAngleMath failingEnvironment
           (searchFor "cafes" EmptyString (Some newYork) [nearCafe]) [] 50 Hv).
Defined.

Lemma out_of_radius_witness :
  50%float = 50%float
  /\ businesses (searchFor "cafes" EmptyString (Some newYork) [farCafe]) <> []
  /\ exists loc, location (searchFor "cafes" EmptyString (Some newYork) [farCafe]) = Some loc
       /\ forall b, In b (businesses (searchFor "cafes" EmptyString (Some newYork) [farCafe])) ->
            hasCoordinates b = true
            /\ withinRadius 50 (attachDistance smallAngleMath loc b) = false.
Proof.
  apply (out_of_radius_meaning smallAngleMath
           (searchFor "cafes" EmptyString (Some newYork) [farCafe]) [] 50 50).
  vm_compute. reflexivity.
Defined.

Lemma larger_radius_witness :
  exists cards',
    renderContent smallAngleMath (searchFor "cafes" EmptyString (Some newYork) [nearCafe; farCafe])
      [] 50 = ShowResults cards'
    /\ forall c, In c [resultCard [] (attachDistance smallAngleMath newYork nearCafe)] ->
         In c cards'.
Proof.
  apply (larger_radius_keeps_cards smallAngleMath
           (searchFor "cafes" EmptyString (Some newYork) [nearCafe; farCafe]) [] 5 50).
  - reflexivity.
  - vm_compute. reflexivity.
Defined.

(** * Further properties: the search button and the geolocation effect *)

Lemma handleSearch_lookup_shape (env : Environment) (st : SearchState) (e : Event) :
  validInputs st -> handleSearch env st <> [e].
Proof.
  intros Hv. rewrite (handleSearch_valid env st Hv).
  destruct (findNearbyBusinesses env _ _ _). discriminate.
Qed.

(** X17: with a category that is not blank and no search running, the
    search button is disabled exactly when a search would be refused for
    the missing location, and enabled exactly when the inputs are valid: a
    click never produces the missing-location message. *)
Theorem search_button_and_validation (env : Environment) (st : SearchState) :
  isLoading st = false -> trim (searchTerm st) <> [] ->
  (searchButtonDisabled st = true
   <-> handleSearch env st = [SetError (Some MISSING_LOCATION)])
  /\ (searchButtonDisabled st = false <-> validInputs st).
Proof.
  intros Hl Ht. unfold searchButtonDisabled. rewrite Hl. cbn [orb].
  destruct (match location st with None => true | Some _ => false end
            && negb (truthy_string (trim (manualLocation st)))) eqn:E.
  - assert (Hbad : location st = None /\ trim (manualLocation st) = []).
    { destruct (location st); [discriminate E|].
      destruct (trim (manualLocation st)); [auto | discriminate E]. }
    destruct Hbad as [Hloc Hm]. split; split.
    + intros _. unfold handleSearch. destruct (trim (searchTerm st)); [congruence|].
      rewrite Hloc, Hm. reflexivity.
    + reflexivity.
    + discriminate.
    + intros [_ [H | H]]; congruence.
  - assert (Hv : validInputs st).
    { split; [exact Ht|]. destruct (location st); [left; discriminate|].
      destruct (trim (manualLocation st)); [discriminate E | right; discriminate]. }
    split; split.
    + discriminate.
    + intros H. exfalso. exact (handleSearch_lookup_shape env st _ Hv H).
    + intros _. exact Hv.
    + reflexivity.
Qed.

Lemma search_button_witness :
  searchButtonDisabled (searchFor "cafes" " " None []) = true
  <-> handleSearch silentEnvironment (searchFor "cafes" " " None [])
      = [SetError (Some MISSING_LOCATION)].
Proof.
  apply (search_button_and_validation silentEnvironment (searchFor "cafes" " " None [])).
  - reflexivity.
  - vm_compute. discriminate.
Defined.

Lemma locationErrorMessage_head (message : jsstring) :
  exists c m, locationErrorMessage message = c :: m.
Proof. unfold locationErrorMessage. cbn. eauto. Qed.

(** X18: once the browser has answered the position request, made while
    no location was known, exactly one of the radius slider and the manual
    location input is rendered: the slider after a position, the input
    after an error or without geolocation. The answer changes neither the
    inputs nor the results; only a position error clears the search error. *)
Theorem geolocation_answer (outcome : GeolocationOutcome) (st : AppState) :
  outcome <> GeolocationPending ->
  location (search st) = None ->
  let st' := geolocationEffect outcome st in
  radiusSliderShown st' = negb (manualInputShown st')
  /\ (radiusSliderShown st' = true <-> exists coords, outcome = GeolocationPosition coords)
  /\ searchTerm (search st') = searchTerm (search st)
  /\ manualLocation (search st') = manualLocation (search st)
  /\ businesses (search st') = businesses (search st)
  /\ isLoading (search st') = isLoading (search st)
  /\ error (search st')
     = match outcome with
       | GeolocationPositionError _ => None
       | _ => error (search st)
       end.
Proof.
  intros Hp Hloc. unfold radiusSliderShown, manualInputShown.
  destruct outcome as [| |coords|message]; [|congruence| |];
    cbn [geolocationEffect search locationError withLocation setState location searchTerm
         manualLocation businesses isLoading error negb].
  - rewrite Hloc. repeat split; try reflexivity; try discriminate.
    intros (coords & E). discriminate E.
  - repeat split; eauto.
  - rewrite Hloc. destruct (locationErrorMessage_head message) as (c & m & ->).
    repeat split; try reflexivity; try discriminate.
    intros (coords & E). discriminate E.
Qed.

Lemma geolocation_answer_witness :
  radiusSliderShown (geolocationEffect (GeolocationPositionError (js "denied")) initialApp)
  = negb (manualInputShown
            (geolocationEffect (GeolocationPositionError (js "denied")) initialApp)).
Proof.
  apply (geolocation_answer (GeolocationPositionError (js "denied")) initialApp).
  - discriminate.
  - reflexivity.
Defined.

(** * Further properties: the lookup by coordinates *)

(** X19: the link of a business found by coordinates is made of its
    title, percent-encoded, and its place id, whatever the model grounded
    its answer on; its title, id and coordinates are the model's. *)
Theorem coordinate_search_results (env : Environment) (category manual : jsstring)
    (loc : LocationCoords) (l : list Business) (b : Business) :
  snd (findNearbyBusinesses env category (Some loc) manual) = Ok l ->
  In b l ->
  exists q,
    encodeURIComponent env (title b) = Ok q
    /\ uri b = js "https://www.google.com/maps/search/?api=1&query=" ++ q
               ++ js "&query_place_id=" ++ placeId b.
Proof.
  intros Hok Hin. apply findNearbyBusinesses_Ok in Hok.
  destruct Hok as (request & response & bs & _ & _ & _ & Hread & -> & _).
  apply uniqueBusinesses_In in Hin. cbn [readBusinesses] in Hread.
  destruct (text response) as [|message|[parsed|]];
    try discriminate; try (injection Hread as <-; contradiction).
  apply map_throwing_Ok in Hread.
  destruct (Forall2_In_r _ _ _ _ Hread Hin) as (p & _ & Hb).
  unfold fromParsed, searchUri in Hb.
  destruct (encodeURIComponent env (parsed_title p)) as [q|t] eqn:Eq; cbn [bind] in Hb;
    [|discriminate].
  injection Hb as <-. exists q. split; [exact Eq | reflexivity].
Qed.

Lemma coordinate_search_witness :
  exists q,
    encodeURIComponent answeringEnvironment (js "Cafe") = Ok q
    /\ js "https://www.google.com/maps/search/?api=1&query=Cafe&query_place_id=abc"
       = js "https://www.google.com/maps/search/?api=1&query=" ++ q
         ++ js "&query_place_id=" ++ js "abc".
Proof.
  apply (coordinate_search_results answeringEnvironment (js "cafes") [] newYork
           [ {| title := js "Cafe";
                uri := js "https://www.google.com/maps/search/?api=1&query=Cafe&query_place_id=abc";
                placeId := js "abc";
                latitude := Some 40.0078125%float;
                longitude := Some (-74.0078125)%float |} ]
           {| title := js "Cafe";
              uri := js "https://www.google.com/maps/search/?api=1&query=Cafe&query_place_id=abc";
              placeId := js "abc";
              latitude := Some 40.0078125%float;
              longitude := Some (-74.0078125)%float |}).
  - vm_compute. reflexivity.
  - left. reflexivity.
Defined.

(** * Further properties: the details and pitch services *)

Lemma rethrowPitch_message (t : thrown) : exists c m, rethrowPitch t = JsError (c :: m).
Proof. destruct t as [message|]; cbn; eauto. Qed.

Lemma rethrowDetails_message (t : thrown) : exists c m, rethrowDetails t = JsError (c :: m).
Proof. destruct t as [message|]; cbn; eauto. Qed.

(** The ways the pitch service can go. *)
Lemma generateContactPitch_cases (env : AssistantEnvironment) (name category : jsstring) :
  match generateContactPitch env name category with
  | (events, Ok text) =>
      text <> []
      /\ events = [CallPitchModel name category]
      /\ keyIsSet (assistant_API_KEY env) = true
      /\ pitchContent env name category = Ok (Some text)
  | (events, Throw t) =>
      (exists c message, t = JsError (c :: message))
      /\ ((events = [ModalConsoleError] /\ keyIsSet (assistant_API_KEY env) = false)
          \/ (events = [CallPitchModel name category; ModalConsoleError]
              /\ keyIsSet (assistant_API_KEY env) = true))
  end.
Proof.
  unfold generateContactPitch, tryGenerateContactPitch.
  destruct (keyIsSet (assistant_API_KEY env)).
  - destruct (pitchContent env name category) as [[[|c text]|]|t]; cbn [bind app].
    + split; [apply rethrowPitch_message|]. right. split; reflexivity.
    + repeat split. discriminate.
    + split; [apply rethrowPitch_message|]. right. split; reflexivity.
    + split; [apply rethrowPitch_message|]. right. split; reflexivity.
  - split; [apply rethrowPitch_message|]. left. split; reflexivity.
Qed.


(** The ways the details service can go. *)
Lemma getBusinessDetails_cases (env : AssistantEnvironment) (id : jsstring) :
  match getBusinessDetails env id with
  | (events, Ok d) =>
      events = [CallDetailsModel id]
      /\ keyIsSet (assistant_API_KEY env) = true
      /\ detailsContent env id = Ok (ParsedDetails d)
  | (events, Throw t) =>
      (exists c message, t = JsError (c :: message))
      /\ ((events = [ModalConsoleError] /\ keyIsSet (assistant_API_KEY env) = false)
          \/ (events = [CallDetailsModel id; ModalConsoleError]
              /\ keyIsSet (assistant_API_KEY env) = true))
  end.
Proof.
  unfold getBusinessDetails, tryGetBusinessDetails.
  destruct (keyIsSet (assistant_API_KEY env)).
  - destruct (detailsContent env id) as [[|message|d]|t]; cbn [bind app];
      try (split; [apply rethrowDetails_message|]; right; split; reflexivity).
    repeat split.
  - split; [apply rethrowDetails_message|]. left. split; reflexivity.
Qed.


(** * Further properties: the details modal *)

Lemma NO_CATEGORY_head : exists c m, NO_CATEGORY = c :: m.
Proof. vm_compute. eauto. Qed.

(** The state after [handleGeneratePitch], by the outcome of the service. *)
Lemma handleGeneratePitch_state (env : AssistantEnvironment) (business : Business)
    (category : jsstring) (st : ModalState) :
  let st' := afterModal (handleGeneratePitch env business category) st in
  details st' = details st
  /\ modal_isLoading st' = modal_isLoading st
  /\ modal_error st' = modal_error st
  /\ copied st' = copied st
  /\ isPitchLoading st' = false
  /\ match category, snd (generateContactPitch env (title business) category) with
     | _ :: _, Ok text => text <> [] /\ pitch st' = text /\ pitchError st' = None
     | _ :: _, Throw t =>
         pitch st' = [] /\ exists c m, t = JsError (c :: m) /\ pitchError st' = Some (c :: m)
     | [], _ => pitch st' = [] /\ pitchError st' = Some NO_CATEGORY
     end.
Proof.
  unfold handleGeneratePitch, afterModal. destruct category as [|k category].
  - cbn. repeat split; reflexivity.
  - pose proof (generateContactPitch_cases env (title business) (k :: category)) as H.
    destruct (generateContactPitch env (title business) (k :: category))
      as [events [text|t]]; cbn [snd].
    + destruct H as (Hne & -> & _). cbn. repeat split; try reflexivity. exact Hne.
    + destruct H as [(c & m & ->) [[-> _] | [-> _]]]; cbn; repeat split;
        try reflexivity; exists c, m; split; reflexivity.
Qed.

(** X22: whatever the modal showed before, after a pitch was requested
    the pitch is no longer loading and exactly one of the pitch and the
    pitch error is shown: the earlier pitch is gone when the request fails.
    The details, their error and the copied mark are left as they were. *)
Theorem handleGeneratePitch_outcome (env : AssistantEnvironment) (business : Business)
    (category : jsstring) (st : ModalState) :
  let st' := afterModal (handleGeneratePitch env business category) st in
  isPitchLoading st' = false
  /\ ((exists text, pitchShown st' = Some text /\ pitchErrorShown st' = None
                    /\ snd (generateContactPitch env (title business) category) = Ok text)
      \/ (exists message, pitchShown st' = None /\ pitchErrorShown st' = Some message))
  /\ details st' = details st
  /\ modal_isLoading st' = modal_isLoading st
  /\ modal_error st' = modal_error st
  /\ copied st' = copied st.
Proof.
  intros st'. pose proof (handleGeneratePitch_state env business category st) as H.
  cbv zeta in H. fold st' in H. destruct H as (Hd & Hl & He & Hc & Hp & H).
  split; [exact Hp|]. split; [|auto]. unfold pitchShown, pitchErrorShown.
  destruct category as [|k category].
  - destruct H as [-> ->]. right. destruct NO_CATEGORY_head as (c & m & ->). eauto.
  - destruct (snd (generateContactPitch env (title business) (k :: category))) as [text|t].
    + destruct H as (Hne & -> & ->). left. exists text.
      destruct text as [|c text]; [congruence | auto].
    + destruct H as (-> & c & m & _ & ->). right. eauto.
Qed.

(** X23: a pitch is requested from the service once, and from the model
    once, exactly when the category is not empty and the API key is set;
    with an empty category the service is not called at all. *)
Theorem handleGeneratePitch_calls (env : AssistantEnvironment) (business : Business)
    (category : jsstring) :
  filter isModalCall (handleGeneratePitch env business category)
  = match category with
    | [] => []
    | _ :: _ =>
        CallGenerateContactPitch (title business) category
        :: (if keyIsSet (assistant_API_KEY env)
            then [CallPitchModel (title business) category]
            else [])
    end.
Proof.
  unfold handleGeneratePitch. destruct category as [|k category]; [reflexivity|].
  pose proof (generateContactPitch_cases env (title business) (k :: category)) as H.
  destruct (generateContactPitch env (title business) (k :: category)) as [events [text|t]].
  - destruct H as (_ & -> & -> & _). reflexivity.
  - destruct H as [_ [[-> ->] | [-> ->]]]; destruct t as [message|]; reflexivity.
Qed.

(** X24: the copy button writes to the clipboard the pitch the service
    returned, marks it copied and schedules the mark's reset; after a
    request that failed, or with an empty category, it does nothing. *)
Theorem handleCopyPitch_after_request (env : AssistantEnvironment) (business : Business)
    (category : jsstring) (st : ModalState) :
  handleCopyPitch (afterModal (handleGeneratePitch env business category) st)
  = match category, snd (generateContactPitch env (title business) category) with
    | _ :: _, Ok text =>
        [ClipboardWriteText text; SetCopied true; SetTimeoutResetCopied 2000]
    | _, _ => []
    end.
Proof.
  pose proof (handleGeneratePitch_state env business category st) as H.
  cbv zeta in H. destruct H as (_ & _ & _ & _ & _ & H). unfold handleCopyPitch.
  destruct category as [|k category].
  - destruct H as [-> _]. reflexivity.
  - destruct (snd (generateContactPitch env (title business) (k :: category))) as [text|t].
    + destruct H as (Hne & -> & _). destruct text; [congruence | reflexivity].
    + destruct H as (-> & _). reflexivity.
Qed.

(** The state after [fetchDetails], by the outcome of the service. *)
Lemma fetchDetails_state (env : AssistantEnvironment) (business : Business)
    (st : ModalState) :
  let st' := afterModal (fetchDetails env business) st in
  modal_isLoading st' = false
  /\ pitch st' = pitch st /\ pitchError st' = pitchError st
  /\ isPitchLoading st' = isPitchLoading st /\ copied st' = copied st
  /\ match snd (getBusinessDetails env (placeId business)) with
     | Ok d => details st' = d /\ modal_error st' = None
     | Throw t =>
         details st' = details st
         /\ exists c m, t = JsError (c :: m) /\ modal_error st' = Some (c :: m)
     end.
Proof.
  unfold fetchDetails, afterModal.
  pose proof (getBusinessDetails_cases env (placeId business)) as H.
  destruct (getBusinessDetails env (placeId business)) as [events [d|t]]; cbn [snd].
  - destruct H as (-> & _). cbn. repeat split; reflexivity.
  - destruct H as [(c & m & ->) [[-> _] | [-> _]]]; cbn; repeat split;
      try reflexivity; exists c, m; split; reflexivity.
Qed.

(** X25: once the details of a business were fetched, the loader is gone
    and the body never shows both details and an error: it shows the details
    the service returned (nothing when it returned [null]), or the message
    it threw. Details kept from an earlier fetch stay in the state when the
    new one fails, but are not rendered. The pitch area is left as it was. *)
Theorem fetchDetails_body (env : AssistantEnvironment) (business : Business)
    (st : ModalState) :
  let st' := afterModal (fetchDetails env business) st in
  body_loader (renderBody st') = false
  /\ match snd (getBusinessDetails env (placeId business)) with
     | Ok d =>
         body_error (renderBody st') = None
         /\ body_details (renderBody st')
            = match d with
              | Some shown => Some (detailRows shown, hoursShown shown)
              | None => None
              end
     | Throw t =>
         body_details (renderBody st') = None
         /\ details st' = details st
         /\ exists message, t = JsError message /\ body_error (renderBody st') = Some message
     end
  /\ pitch st' = pitch st /\ pitchError st' = pitchError st
  /\ isPitchLoading st' = isPitchLoading st /\ copied st' = copied st.
Proof.
  intros st'. pose proof (fetchDetails_state env business st) as H.
  cbv zeta in H. fold st' in H. destruct H as (Hl & Hp & Hpe & Hpl & Hc & H).
  unfold renderBody. cbn [body_loader body_error body_details]. rewrite Hl.
  split; [reflexivity|]. split; [|auto].
  destruct (snd (getBusinessDetails env (placeId business))) as [d|t].
  - destruct H as [-> ->]. split; [reflexivity | destruct d; reflexivity].
  - destruct H as (Hd & c & m & -> & ->). repeat split; [exact Hd|]. eauto.
Qed.

Lemma renderDetailItem_row (text href : option jsstring) (r : DetailRow) :
  renderDetailItem text href = Some r ->
  text = Some (row_text r) /\ row_text r <> []
  /\ (row_href r = None \/ (row_href r = href /\ row_href r <> Some [])).
Proof.
  unfold renderDetailItem. destruct text as [[|c t]|]; try discriminate.
  intros [= <-]. cbn [row_text row_href]. split; [reflexivity|]. split; [discriminate|].
  destruct href as [[|h ref]|]; auto. right. split; [reflexivity | discriminate].
Qed.

(** X26: a row of the details is never empty, and there are at most
    three: the address, which is no link; the phone, whose link is [tel:]
    followed by the number shown; the website, whose link is the text shown.
    A phone that is absent gives no row, so no link to [tel:undefined]. *)
Theorem detailRows_rows (d : BusinessDetails) :
  (List.length (detailRows d) <= 3)%nat
  /\ forall r, In r (detailRows d) ->
       row_text r <> []
       /\ ((address d = Some (row_text r) /\ row_href r = None)
           \/ (phone d = Some (row_text r) /\ row_href r = Some (js "tel:" ++ row_text r))
           \/ (website d = Some (row_text r) /\ row_href r = Some (row_text r))).
Proof.
  unfold detailRows, renderDetailItem, telHref.
  destruct (address d) as [[|a0 a]|], (phone d) as [[|p0 p]|], (website d) as [[|w0 w]|];
    cbn [app List.length In row_text row_href];
    (split; [repeat constructor|]);
    intros r Hr;
    repeat (destruct Hr as [<- | Hr]; [cbn [row_text row_href]; split; [discriminate|auto]|]);
    destruct Hr.
Qed.
